(** * serverless-idempotency-helper: the repackaging plugin

  A shallow embedding of [src/libs/plugins/serverless-idempotency-helper/index.js]
  and the properties of the repackaging engine that hold of it.

  The plugin is a sequence of calls into Node's [fs], [path] and
  [process] modules and into three packages ([extract-zip], [glob],
  [bestzip]).  The JavaScript of [index.js] is embedded as it is written,
  in a state-and-outcome monad over a [World]; the modules it calls are
  modelled next to it, each with the behaviour its documentation gives it.

  Standing assumptions: the file system is a finite map from path strings
  to files and directories, so two spellings of one path are two paths,
  names are told apart byte by byte, and symbolic links do not exist; the
  service directory is an absolute path, as the framework hands it over;
  permission bits are left out, and so are errors of the disk itself (no
  room, no permission) other than those of the archiver.  The time does not
  move while a run lasts.

  Several of the models below describe a package only for the inputs it
  meets in an orderly run: a scratch root that is not on disk when the run
  starts, paths without glob characters that need no normalising, archives
  whose entries do not collide.  Each such model says so where it is
  defined, and the predicates [quiet], [literal], [proper] and [coherent]
  name these inputs; a theorem that depends on one of them has it among its
  hypotheses. *)

From Stdlib Require Import ZArith Ascii String.
From stdpp Require Import base gmap list strings sorting.

Local Open Scope Z_scope.

(** ** Paths

  Paths are JavaScript strings.  The helpers below are the parts of Node's
  POSIX [path] module, and of path resolution by the operating system, that
  the plugin relies on. *)
Module Path.

Definition slash : ascii := "/"%char.

(** The components of a path: the pieces between the slashes. *)
Fixpoint split (s : string) : list string :=
  match s with
  | EmptyString => [EmptyString]
  | String c s' =>
      if Ascii.eqb c slash then EmptyString :: split s'
      else match split s' with
           | [] => [String c EmptyString]
           | x :: xs => String c x :: xs
           end
  end.

Fixpoint join (cs : list string) : string :=
  match cs with
  | [] => EmptyString
  | [c] => c
  | c :: cs' => c +:+ "/" +:+ join cs'
  end.

Fixpoint no_slash (s : string) : bool :=
  match s with
  | EmptyString => true
  | String c s' => negb (Ascii.eqb c slash) && no_slash s'
  end.

(** [strip_prefix p s] is [Some r] exactly when [s = p +:+ r]. *)
Fixpoint strip_prefix (p s : string) : option string :=
  match p, s with
  | EmptyString, _ => Some s
  | String a p', String b s' =>
      if Ascii.eqb a b then strip_prefix p' s' else None
  | String _ _, EmptyString => None
  end.

(** [strip_suffix x s] is [Some r] exactly when [s = r +:+ x]. *)
Fixpoint strip_suffix (x s : string) : option string :=
  if decide (s = x) then Some EmptyString
  else match s with
       | EmptyString => None
       | String c s' => String c <$> strip_suffix x s'
       end.

(** Trailing empty components are trailing slashes. *)
Fixpoint drop_trailing_empty (cs : list string) : list string :=
  match cs with
  | [] => []
  | c :: cs' =>
      match drop_trailing_empty cs' with
      | [] => if decide (c = EmptyString) then [] else [c]
      | r => c :: r
      end
  end.

(** [path.basename(p, ext)]: the last component, without the extension
    [ext] unless that is all there is of it.  This is Node's result for a
    path that does not end in a slash; trailing slashes are ignored here,
    while Node keeps them in one case (a last component that is the tail of
    [ext]). *)
Definition basename (p ext : string) : string :=
  let base := List.last (drop_trailing_empty (split p)) EmptyString in
  match strip_suffix ext base with
  | Some EmptyString => if decide (p = ext) then EmptyString else base
  | Some stem => stem
  | None => base
  end.

(** [path.dirname(p)] for a path with at least one slash: everything before
    the last component, trailing slashes ignored. *)
Definition dirname (p : string) : string :=
  join (drop_trailing_empty (removelast (drop_trailing_empty (split p)))).

(** The path [rel], read from the working directory [cwd], the way the
    operating system resolves it: a leading [../] climbs to the parent.
    The working directory is taken as it is spelled: this is the resolved
    path for a [cwd] that needs no normalising, not for one that ends in a
    component [.] or [..]. *)
Definition resolve (cwd rel : string) : string :=
  match strip_prefix "../" rel with
  | Some rest => dirname cwd +:+ "/" +:+ rest
  | None => cwd +:+ "/" +:+ rel
  end.

(** The name of [p] relative to the directory [dir], when [p] lies strictly
    below it. *)
Definition relative (dir p : string) : option string :=
  match strip_prefix (dir +:+ "/") p with
  | Some EmptyString => None
  | r => r
  end.

Definition under (dir p : string) : bool := bool_decide (is_Some (relative dir p)).

(** The directories above [p], outermost first (the root is not listed). *)
Definition ancestors (p : string) : list string :=
  let cs := split p in
  filter (λ a, a ≠ EmptyString) ((λ n, join (take n cs)) <$> seq 1 (length cs - 1)).

End Path.


(** ** Archives, files and the process

    An archive is represented by its entry list in physical order, each entry
    with what the zip format records of it that the plugin can influence: the
    relative path, the directory flag, the data and the modification time.
    Two archives written by the same archiver are byte-identical exactly when
    these lists are equal.  Permission bits are not modelled. *)
Record ZipEntry (C : Type) : Type := mkEntry {
  ze_name : string;
  ze_dir : bool;
  ze_data : C;
  ze_mtime : Z;
}.
Arguments mkEntry {C}.
Arguments ze_name {C}.
Arguments ze_dir {C}.
Arguments ze_data {C}.
Arguments ze_mtime {C}.

(** What a file holds: raw bytes, or a readable zip archive. *)
#[warnings="-register-all"]
Inductive Content : Type :=
| Raw (b : list Byte.byte)
| Zip (es : list (ZipEntry Content)).

Abbreviation Entry := (ZipEntry Content).

(** A node of the file system, with its access and modification times in
    milliseconds since the epoch. *)
Inductive Node : Type :=
| NFile (c : Content) (atime mtime : Z)
| NDir (atime mtime : Z).

Abbreviation FS := (gmap string Node).

(** The state the plugin runs in: [process.env], the file system, the clock
    that stamps what is created, the lines written through
    [serverless.cli.log] and [console.error], and the recursive removals that
    were requested through the callback form of [fs.rmdir] and are not yet
    carried out. *)
Record World : Type := mkWorld {
  env : gmap string string;
  fs : FS;
  clock : Z;
  log : list string;
  pending : list string;
}.

Definition set_env (f : gmap string string → gmap string string) (w : World) : World :=
  mkWorld (f (env w)) (fs w) (clock w) (log w) (pending w).
Definition set_fs (f : FS → FS) (w : World) : World :=
  mkWorld (env w) (f (fs w)) (clock w) (log w) (pending w).
Definition set_log (f : list string → list string) (w : World) : World :=
  mkWorld (env w) (fs w) (clock w) (f (log w)) (pending w).
Definition set_pending (f : list string → list string) (w : World) : World :=
  mkWorld (env w) (fs w) (clock w) (log w) (f (pending w)).

Inductive Error : Type :=
| ExtractionError
| FilesystemError
| CompressionError.

(** How an [async] function ends: its promise resolves, it rejects (an
    exception propagates to the caller), or the process is terminated by
    [process.exit]. *)
Inductive Outcome (A : Type) : Type :=
| Resolved (a : A) (w : World)
| Rejected (e : Error) (w : World)
| Exited (code : Z) (w : World).
Arguments Resolved {A}.
Arguments Rejected {A}.
Arguments Exited {A}.

Definition final {A} (o : Outcome A) : World :=
  match o with Resolved _ w | Rejected _ w | Exited _ w => w end.

Definition M (A : Type) : Type := World → Outcome A.

Definition ret {A} (a : A) : M A := λ w, Resolved a w.

Definition bind {A B} (m : M A) (k : A → M B) : M B := λ w,
  match m w with
  | Resolved a w' => k a w'
  | Rejected e w' => Rejected e w'
  | Exited c w' => Exited c w'
  end.

#[global] Instance M_ret : MRet M := @ret.
#[global] Instance M_bind : MBind M := λ A B k m, bind m k.

(** [promise.catch(handler)]: a rejection is handed to [handler]. *)
Definition catch {A} (m : M A) (handler : Error → M A) : M A := λ w,
  match m w with
  | Rejected e w' => handler e w'
  | o => o
  end.

(** [xs.forEach(f)], and the [for] loop over the indices of [xs]. *)
Fixpoint forEach {A} (xs : list A) (f : A → M unit) : M unit :=
  match xs with
  | [] => ret tt
  | x :: xs' => f x;; forEach xs' f
  end.

(** ** The platform

    What differs from one machine to the next and is outside the plugin's
    control: the time zone of the process, the order in which the file system
    lists directory entries, whether the archiver manages to write its
    output (disk full, quota, ...), and which archiver there is: [bestzip]
    runs the [zip] command when it finds one on the path and builds the
    archive itself, with the [archiver] package, when it does not.  The
    traversal order is taken to depend on the paths alone, as it does where
    directories are hashed or sorted; a path of lower rank is listed first.
    The order in which the [archiver] package emits the files it finds is a
    rank of its own.

    The time zone and the search path of the process are what they are
    however they were set, the variables [TZ] and [PATH] included: [env]
    of the [World] holds the other variables. *)
Record Platform : Type := mkPlatform {
  (** minutes to add to local time to get UTC, as [getTimezoneOffset()] of
      a date in the winter of 1990 *)
  tz_offset : Z;
  (** the rank of a path in the file system's traversal order *)
  dirent_rank : string → nat;
  (** whether writing an archive to this path fails *)
  zip_fault : string → bool;
  (** whether there is a [zip] command on the path *)
  native_zip : bool;
  (** the rank of a path in the order in which [archiver] emits files *)
  archiver_rank : string → nat;
}.

(** ** Dates

    [new Date(year, monthIndex, day)] is midnight of that day in LOCAL time.
    [MakeDay] is the day number of ECMA-262 (days since 1 January 1970). *)
Definition msPerDay : Z := 86400000.
Definition msPerMinute : Z := 60000.

Definition MakeDay (year monthIndex date : Z) : Z :=
  let m := monthIndex + 1 in
  let y := if m <=? 2 then year - 1 else year in
  let era := y / 400 in
  let yoe := y - era * 400 in
  let mp := if m >? 2 then m - 3 else m + 9 in
  let doy := (153 * mp + 2) / 5 + date - 1 in
  let doe := yoe * 365 + yoe / 4 - yoe / 100 + doy in
  era * 146097 + doe - 719468.

Definition Date_UTC (year monthIndex date : Z) : Z :=
  MakeDay year monthIndex date * msPerDay.

Definition new_Date (pf : Platform) (year monthIndex date : Z) : Z :=
  Date_UTC year monthIndex date + tz_offset pf * msPerMinute.

(** ** Node's [process], [fs] and the serverless utilities *)

(** [process.env[k] = v] *)
Definition process_env_set (k v : string) : M unit := λ w,
  Resolved tt (set_env <[k := v]> w).

(** [process.exit(code)] *)
Definition process_exit {A} (code : Z) : M A := λ w, Exited code w.

(** [this.serverless.cli.log(msg)] *)
Definition cli_log (msg : string) : M unit := λ w,
  Resolved tt (set_log (λ l, l ++ [msg]) w).

(** [console.error(err.stack)] *)
Definition console_error (e : Error) : M unit := λ w,
  Resolved tt (set_log (λ l, l ++ ["error"]) w).

(** Removal of [dir] and everything below it. *)
Definition rm_rf (dir : string) (t : FS) : FS :=
  filter (λ kv, kv.1 ≠ dir ∧ Path.under dir kv.1 = false) t.

(** [fs.rmdir(dir, { recursive: true }, (err) => {})]: the callback form
    returns at once; the removal is carried out by the runtime afterwards and
    whatever error it ends with is handed to a callback that drops it. *)
Definition fs_rmdir_recursive (dir : string) : M unit := λ w,
  Resolved tt (set_pending (λ l, l ++ [dir]) w).

(** The world once the removals that are outstanding have been carried out
    with nothing else at work on the disk: each takes its directory and
    everything below it, and none is left outstanding.

    The runtime carries a removal out on its own, at the same time as the
    plugin goes on.  A removal of a directory that is not on disk, started
    by the runtime when it is asked for, finds nothing and has ended before
    the unzip step makes the directory; that is the case in a [quiet] world,
    and there [settle] is what happens.  A removal of a scratch root that is
    on disk runs while the plugin unzips into it, and what comes of the two
    depends on the scheduling: the removal can fail half way, and the run
    need not end.  Of such a run [settle] gives the one course in which the
    removal is done before the plugin goes on. *)
Definition settle (w : World) : World :=
  set_pending (λ _, []) (set_fs (λ t, foldl (λ t d, rm_rf d t) t (pending w)) w).

(** [await p]: the function suspends until [p] is settled.  The removals
    that are outstanding are taken to be done by then, see [settle]. *)
Definition await {A} (p : M A) : M A := λ w, p (settle w).

Definition mkdir_one (now : Z) (t : FS) (d : string) : FS :=
  match t !! d with
  | None => <[d := NDir now now]> t
  | Some _ => t
  end.

(** [mkdir -p]: the directory and the missing directories above it. *)
Definition mkdir_p (now : Z) (d : string) (t : FS) : FS :=
  foldl (mkdir_one now) t (Path.ancestors d ++ [d]).

(** [fse.mkdirsSync(path.dirname(filePath))]: the directory that is to hold
    [filePath], and the missing directories above it.  The root is there. *)
Definition mkdir_parent (now : Z) (filePath : string) (t : FS) : FS :=
  let d := Path.dirname filePath in
  if decide (d = "") then t else mkdir_p now d t.

(** [this.serverless.utils.writeFileDir(filePath)] makes the directory that
    [filePath] lies in, not [filePath]: called with the scratch root, it
    makes sure of the service directory and leaves the scratch root to the
    unzip step. *)
Definition writeFileDir (filePath : string) : M unit := λ w,
  Resolved tt (set_fs (mkdir_parent (clock w) filePath) w).

(** [fs.utimesSync(path, atime, mtime)] *)
Definition utimesSync (path : string) (atime mtime : Z) : M unit := λ w,
  match fs w !! path with
  | Some (NFile c _ _) => Resolved tt (set_fs <[path := NFile c atime mtime]> w)
  | Some (NDir _ _) => Resolved tt (set_fs <[path := NDir atime mtime]> w)
  | None => Rejected FilesystemError w
  end.

(** [fs.copyFileSync(src, dest)] overwrites [dest] in place: it opens and
    truncates [dest], then fills it with the bytes of [src].  Node gives no
    atomicity for the copy.  [copyFile_truncated] is the file system a
    concurrent reader sees between the two steps. *)
Definition copyFile_truncated (now : Z) (dest : string) (t : FS) : FS :=
  <[dest := NFile (Raw []) now now]> t.

Definition copyFile_filled (now : Z) (dest : string) (c : Content) (t : FS) : FS :=
  <[dest := NFile c now now]> t.

Definition copyFileSync (src dest : string) : M unit := λ w,
  match fs w !! src, fs w !! dest with
  | Some (NFile c _ _), Some (NDir _ _) => Rejected FilesystemError w
  | Some (NFile c _ _), _ =>
      Resolved tt (set_fs (λ t, copyFile_filled (clock w) dest c
                                  (copyFile_truncated (clock w) dest t)) w)
  | _, _ => Rejected FilesystemError w
  end.


(** ** The packages: [glob], [extract-zip], [bestzip] *)

(** The order in which the file system yields the given paths. *)
Definition rank_le (pf : Platform) (a b : string) : Prop :=
  (dirent_rank pf a ≤ dirent_rank pf b)%nat.

#[global] Instance rank_le_dec pf : RelDecision (rank_le pf).
Proof. intros a b. unfold rank_le. apply _. Defined.

Definition traverse (pf : Platform) (paths : list string) : list string :=
  merge_sort (rank_le pf) paths.

(** Everything strictly below [dir]: files and directories alike. *)
Definition below (dir : string) (t : FS) : FS :=
  filter (λ kv, Path.under dir kv.1 = true) t.

(** A character that [glob] reads as part of a pattern and not as itself. *)
Definition glob_magic (c : ascii) : bool :=
  bool_decide (c ∈ list_ascii_of_string "*?[]{}()!+@|\").

(** A string without such characters: spliced into a pattern, it stands for
    itself. *)
Fixpoint glob_plain (s : string) : bool :=
  match s with
  | EmptyString => true
  | String c s' => negb (glob_magic c) && glob_plain s'
  end.

(** [glob.sync(`${dir}/**/*`, { dot: true, silent: true, follow: true })]:
    every path below [dir], dot files included.  The pattern does not ask
    for files only, so directories are matched as well.

    The plugin splices [dir] into the pattern as it is.  This is what the
    pattern matches for a [dir] that is [glob_plain] and needs no
    normalising; for a [dir] with a bracket, a brace, a star or the like in
    it the pattern means something else, and what the package returns then
    is not described here. *)
Definition glob_all (pf : Platform) (dir : string) (t : FS) : list string :=
  traverse pf (map_to_list (below dir t)).*1.

(** [glob.sync(`${dir}/**/*.zip`, { dot: true, silent: true, follow: true })],
    for a [dir] that is [glob_plain], as for [glob_all]. *)
Definition glob_zip (pf : Platform) (dir : string) (t : FS) : list string :=
  List.filter (λ p, bool_decide (is_Some (Path.strip_suffix ".zip" p))) (glob_all pf dir t).

(** [extract-zip] writes one entry: a directory entry makes the directory,
    a file entry makes the directories above the file and then the file.
    The time recorded in the entry is not restored.  The name of the entry
    is taken as it is spelled.  Where an entry collides with what is on disk
    (a file where a directory is needed, or the other way round), or its
    name leads out of the directory, the package rejects; the model writes
    on, so it speaks for archives that are [coherent], unzipped into a
    directory that holds nothing in their way. *)
Definition write_entry (now : Z) (dir : string) (t : FS) (e : Entry) : FS :=
  let dest := dir +:+ "/" +:+ ze_name e in
  if ze_dir e then mkdir_p now dest t
  else <[dest := NFile (ze_data e) now now]>
         (foldl (mkdir_one now) t (Path.ancestors dest)).

(** [extract(zipPath, { dir })]: makes [dir], opens the archive and writes
    its entries in their physical order.  The promise rejects when the
    archive cannot be read as a zip file.  It also rejects when an entry
    cannot be written, which the model leaves out, see [write_entry]: where
    the package resolves, so does the model, and with the same tree. *)
Definition extract (zipPath dir : string) : M unit := λ w,
  let w' := set_fs (mkdir_p (clock w) dir) w in
  match fs w !! zipPath with
  | Some (NFile (Zip es) _ _) =>
      Resolved tt (set_fs (λ t, foldl (write_entry (clock w) dir) t es) w')
  | _ => Rejected ExtractionError w'
  end.

(** The argument object of [bestzip]. *)
Record ZipArgs : Type := mkZipArgs {
  source : string;
  cwd : string;
  destination : string;
}.

(** Whether the [zip] command leaves directory entries out: the option [-D],
    which it also reads from the environment variable [ZIPOPT]. *)
Definition zip_no_dir_entries (e : gmap string string) : bool :=
  bool_decide (e !! "ZIPOPT" = Some "-D").

(** The entry [zip] makes of the node at [p]. *)
Definition entry_of (nodirs : bool) (dir : string) (t : FS) (p : string) : option Entry :=
  rel ← Path.relative dir p;
  node ← t !! p;
  match node with
  | NFile c _ mtime => Some (mkEntry rel false c mtime)
  | NDir _ mtime =>
      if nodirs then None else Some (mkEntry rel true (Raw []) mtime)
  end.

(** The entries of the archive that [zip -r destination .] builds in [dir]:
    one per node met, in the order of the traversal.  The command does not
    sort them. *)
Definition zip_entries (pf : Platform) (e : gmap string string) (dir : string) (t : FS) : list Entry :=
  omap (entry_of (zip_no_dir_entries e) dir t) (glob_all pf dir t).

(** The order in which the [archiver] package emits the given paths. *)
Definition archiver_le (pf : Platform) (a b : string) : Prop :=
  (archiver_rank pf a ≤ archiver_rank pf b)%nat.

#[global] Instance archiver_le_dec pf : RelDecision (archiver_le pf).
Proof. intros a b. unfold archiver_le. apply _. Defined.

(** The entry that [bestzip], building the archive itself, makes of the
    node at [p]: with the source [.] a file below the working directory is
    stored under its relative path after [./]; directories get no entry. *)
Definition node_entry_of (dir : string) (t : FS) (p : string) : option Entry :=
  rel ← Path.relative dir p;
  node ← t !! p;
  match node with
  | NFile c _ mtime => Some (mkEntry ("./" +:+ rel) false c mtime)
  | NDir _ _ => None
  end.

(** The entries of the archive that [bestzip] builds itself of the tree in
    [dir], in the order in which [archiver] emits them.  [ZIPOPT] plays no
    part. *)
Definition node_entries (pf : Platform) (dir : string) (t : FS) : list Entry :=
  omap (node_entry_of dir t)
    (merge_sort (archiver_le pf) (map_to_list (below dir t)).*1).

(** The entries of the archive that [bestzip] builds of the tree in [dir],
    by the [zip] command where there is one and by itself where there is
    not; [None] when there is nothing to build it of, which the [zip]
    command ends on with a status other than 0, while [bestzip] by itself
    writes an archive without entries. *)
Definition built (pf : Platform) (e : gmap string string) (dir : string) (t : FS) :
    option (list Entry) :=
  if native_zip pf then
    match zip_entries pf e dir t with
    | [] => None
    | es => Some es
    end
  else Some (node_entries pf dir t).

(** [zip(zipArgs)] of [bestzip]; [source] is [.], the working directory
    itself.  With a [zip] command on the path it runs the command in [cwd]
    with [--recurse-paths destination source]: this is the command the
    plugin's comments count on.  Without one it builds the archive with the
    [archiver] package.  The command is modelled for a [destination] that
    does not exist yet, where it writes a new archive; that is the case in a
    scratch root that was not on disk when the run started, for archives of
    different base names.  (On a [destination] that exists the command
    updates the archive it finds.)  The promise rejects when the archive
    cannot be written, or when the command ends with a status other than 0.
    A rejected run leaves no archive behind. *)
Definition zip (pf : Platform) (args : ZipArgs) : M unit := λ w,
  let dest := Path.resolve (cwd args) (destination args) in
  if zip_fault pf dest then Rejected CompressionError w
  else match built pf (env w) (cwd args) (fs w) with
       | None => Rejected CompressionError w
       | Some es => Resolved tt (set_fs <[dest := NFile (Zip es) (clock w) (clock w)]> w)
       end.

(** ** The plugin: [index.js] *)

(** The [this] of the plugin: what it reads from [this.serverless] and
    [this.options]. *)
Record Plugin : Type := mkPlugin {
  (** [this.serverless.serviceDir] *)
  serviceDir : string;
  (** [this.options.function] *)
  options_function : option string;
  (** [this.serverless.service.getAllFunctions()] *)
  getAllFunctions : list string;
  (** [_.get(this.serverless, "service.package.individually")], as a truth value *)
  package_individually : bool;
  (** [this.serverless.service.getServiceObject().name] *)
  service_name : string;
}.

Definition isIndividialPackaging (this : Plugin) : bool :=
  package_individually this.

Definition getFunctionArchives (this : Plugin) : list string :=
  let dotServerlessDir := serviceDir this +:+ "/.serverless" in
  let functionNames :=
    match options_function this with
    | Some f => if decide (f = "") then getAllFunctions this else [f]
    | None => getAllFunctions this
    end in
  if isIndividialPackaging this then
    (λ name, dotServerlessDir +:+ "/" +:+ name +:+ ".zip") <$> functionNames
  else
    [dotServerlessDir +:+ "/" +:+ service_name this +:+ ".zip"].

(** The loop of [repackFunctions] has four commented steps.  "Unzip the
    archive": *)
Definition unzipArchive (zip_i extractDir : string) : M unit :=
  await (extract zip_i extractDir).

(** "Find all files in the archive, and reset last accessed and modified
    timestamps." *)
Definition resetTimestamps (pf : Platform) (extractDir : string) (time : Z) : M unit :=
  files ← (λ w, Resolved (glob_all pf extractDir (fs w)) w);
  forEach files (λ file, utimesSync file time time).

(** "Repack the zip file."  The argument object names the source, the
    working directory and the destination, and nothing else; a rejection is
    caught, printed, and ends the process. *)
Definition repackZip (pf : Platform) (extractDir funcName : string) : M unit :=
  let zipArgs := mkZipArgs "." extractDir ("../" +:+ funcName +:+ ".zip.new") in
  await (catch (zip pf zipArgs) (λ err, console_error err;; process_exit 1)).

(** "Copy the repacked zip file to the .serverless directory." *)
Definition copyRepacked (repackDir funcName zip_i : string) : M unit :=
  copyFileSync (repackDir +:+ "/" +:+ funcName +:+ ".zip.new") zip_i.

(** One pass of the [for] loop of [repackFunctions], for [zips[index]]. *)
Definition repackOne (pf : Platform) (repackDir : string) (time : Z) (zip_i : string) : M unit :=
  let funcName := Path.basename zip_i ".zip" in
  let extractDir := repackDir +:+ "/" +:+ funcName in
  unzipArchive zip_i extractDir;;
  resetTimestamps pf extractDir time;;
  repackZip pf extractDir funcName;;
  copyRepacked repackDir funcName zip_i.

Definition repackFunctions (pf : Platform) (this : Plugin) (archives : list string) : M unit :=
  cli_log "Repacking functions for speed...";;
  process_env_set "ZIPOPT" "-D";;
  let time := new_Date pf 1990 1 1 in
  let repackDir := serviceDir this +:+ "/.repack" in
  let zips := archives in
  fs_rmdir_recursive repackDir;;
  writeFileDir repackDir;;
  forEach zips (repackOne pf repackDir time);;
  fs_rmdir_recursive repackDir.

(** [repackAllFunctions], the hook of [package:createDeploymentArtifacts]. *)
Definition repackAllFunctions (pf : Platform) (this : Plugin) : M unit :=
  let functionArchives := getFunctionArchives this in
  repackFunctions pf this functionArchives.

(** The archives [repackAnyOtherZips] hands on: what the glob found, less
    what [functionArchives.includes]. *)
Definition otherZips (this : Plugin) (found : list string) : list string :=
  let functionArchives := getFunctionArchives this in
  filter (λ el, el ∉ functionArchives) found.

(** [repackAnyOtherZips], the hook of [package:compileEvents]. *)
Definition repackAnyOtherZips (pf : Platform) (this : Plugin) : M unit := λ w,
  let dotServerlessDir := serviceDir this +:+ "/.serverless" in
  let zips := glob_zip pf dotServerlessDir (fs w) in
  let zips := otherZips this zips in
  repackFunctions pf this zips w.

(** ** The archive locator

    The plugin registers [repackAllFunctions] for
    [package:createDeploymentArtifacts] and [repackAnyOtherZips] for the later
    [package:compileEvents].  [repacked] lists the archives that the two
    hooks, run in that order, hand to [repackFunctions], [found] being what
    the glob of the second hook returns. *)
Definition repacked (this : Plugin) (found : list string) : list string :=
  getFunctionArchives this ++ otherZips this found.

(** The locator in the words of its contract: all explicit paths, plus any
    path found by the glob that is not already in the explicit list; explicit
    paths first, discovered paths appended. *)
Definition ArchiveLocator (explicit found : list string) : list string :=
  explicit ++ filter (λ p, p ∉ explicit) found.

(** ** What the steps amount to

    Closed forms of the steps above, used to state what they do. *)

Definition set_times (time : Z) (n : Node) : Node :=
  match n with
  | NFile c _ _ => NFile c time time
  | NDir _ _ => NDir time time
  end.

(** Every node below [dir] with both its times set to [time]. *)
Definition touch_below (dir : string) (time : Z) (t : FS) : FS :=
  map_imap (λ k n, Some (if Path.under dir k then set_times time n else n)) t.

(** [utimesSync] on a path that exists. *)
Definition touch (time : Z) (t : FS) (p : string) : FS :=
  match t !! p with
  | Some n => <[p := set_times time n]> t
  | None => t
  end.

(** The directories that extracting the entry [e] into [dir] makes sure of. *)
Definition entry_dirs (dir : string) (e : Entry) : list string :=
  let dest := dir +:+ "/" +:+ ze_name e in
  if ze_dir e then Path.ancestors dest ++ [dest] else Path.ancestors dest.

(** A path that was absent, or is as it was, or was absent and is now a
    directory: what a step may do to a path it does not write. *)
Definition kept (t t' : FS) (q : string) : Prop :=
  t' !! q = t !! q ∨ (t !! q = None ∧ ∃ now, t' !! q = Some (NDir now now)).

(** The data that unzipping [es] into [dir] leaves in the file at [k]: that
    of the last file entry written there. *)
Fixpoint file_data (dir : string) (es : list Entry) (k : string) : option Content :=
  match es with
  | [] => None
  | e :: es' =>
      match file_data dir es' k with
      | Some c => Some c
      | None =>
          if decide (ze_dir e = false ∧ k = dir +:+ "/" +:+ ze_name e)
          then Some (ze_data e) else None
      end
  end.



(** The tree after unzipping the entries [es] into [dir]. *)
Definition extracted (now : Z) (dir : string) (es : list Entry) (t : FS) : FS :=
  foldl (write_entry now dir) (mkdir_p now dir t) es.

(** The four ways one pass of the loop can go for the archive [p] from the
    world [w]: the archive cannot be read; the archiver fails; the copy
    fails; the archive is replaced. *)
Inductive JobResult : Type :=
| Unreadable
| NotRebuilt (staged_tree : FS)
| NotCopied (staged_tree : FS) (staged : list Entry)
| Replaced (staged_tree : FS) (staged : list Entry).

Definition staging (repackDir p : string) : string :=
  repackDir +:+ "/" +:+ Path.basename p ".zip" +:+ ".zip.new".

Definition job (pf : Platform) (repackDir : string) (time : Z) (p : string) (w : World) : JobResult :=
  let dir := repackDir +:+ "/" +:+ Path.basename p ".zip" in
  match fs (settle w) !! p with
  | Some (NFile (Zip es) _ _) =>
      let t2 := touch_below dir time (extracted (clock w) dir es (fs (settle w))) in
      if zip_fault pf (staging repackDir p) then NotRebuilt t2
      else match built pf (env w) dir t2 with
           | None => NotRebuilt t2
           | Some staged =>
               match <[staging repackDir p := NFile (Zip staged) (clock w) (clock w)]> t2 !! p with
               | Some (NDir _ _) => NotCopied t2 staged
               | _ => Replaced t2 staged
               end
           end
  | _ => Unreadable
  end.

Definition job_outcome (repackDir : string) (p : string) (w : World) (r : JobResult) : Outcome unit :=
  let dir := repackDir +:+ "/" +:+ Path.basename p ".zip" in
  let now := clock w in
  let stg := staging repackDir p in
  match r with
  | Unreadable =>
      Rejected ExtractionError
        (mkWorld (env w) (mkdir_p now dir (fs (settle w))) now (log w) [])
  | NotRebuilt t2 =>
      Exited 1 (mkWorld (env w) t2 now (log w ++ ["error"]) [])
  | NotCopied t2 staged =>
      Rejected FilesystemError
        (mkWorld (env w) (<[stg := NFile (Zip staged) now now]> t2) now (log w) [])
  | Replaced t2 staged =>
      Resolved tt
        (mkWorld (env w)
           (copyFile_filled now p (Zip staged)
              (copyFile_truncated now p (<[stg := NFile (Zip staged) now now]> t2)))
           now (log w) [])
  end.

(** The world in which the loop of [repackFunctions] starts. *)
Definition started (this : Plugin) (w : World) : World :=
  let repackDir := serviceDir this +:+ "/.repack" in
  mkWorld (<["ZIPOPT" := "-D"]> (env w))
          (mkdir_parent (clock w) repackDir (fs w))
          (clock w)
          (log w ++ ["Repacking functions for speed..."])
          (pending w ++ [repackDir]).

(** An archive path the loop can name a scratch directory after. *)
Definition named (p : string) : Prop := Path.basename p ".zip" ≠ "".

(** The scratch directory the loop unzips the archive [p] into. *)
Definition extraction (repackDir p : string) : string :=
  repackDir +:+ "/" +:+ Path.basename p ".zip".

(** The archive [es] has no directory entries. *)
Definition files_only (es : list Entry) : Prop :=
  Forall (λ e, ze_dir e = false) es.

(** The entries [es], read as paths below [dir], are in the order of the
    platform's traversal. *)
Definition in_traversal_order (pf : Platform) (dir : string) (es : list Entry) : Prop :=
  StronglySorted (λ e1 e2, rank_le pf (dir +:+ "/" +:+ ze_name e1) (dir +:+ "/" +:+ ze_name e2)) es.

(** The entries [es] are sorted by relative path, byte-wise. *)
Definition sorted_by_path (es : list Entry) : Prop :=
  StronglySorted (λ e1 e2, String.le (ze_name e1) (ze_name e2)) es.

(** The entry list of the archive at [p], when there is a readable one. *)
Definition archive_at (w : World) (p : string) : option (list Entry) :=
  match fs w !! p with
  | Some (NFile (Zip es) _ _) => Some es
  | _ => None
  end.

(** ** Orderly inputs

    The inputs for which the models of the packages above are the packages:
    paths that stand for themselves, a run that starts with no scratch root
    on disk and no removal under way, archives that unzip without one entry
    getting in the way of another. *)

(** A path component that names an entry of a directory. *)
Definition component (c : string) : bool :=
  negb (bool_decide (c ∈ [""; "."; ".."])).

(** An absolute path that needs no normalising: it starts at the root, and
    no component of it is empty, [.] or [..].  [path.join] and
    [path.resolve] leave such a path as it is, and it does not end in a
    slash. *)
Definition tidy (p : string) : bool :=
  match Path.split p with
  | "" :: c :: cs => forallb component (c :: cs)
  | _ => false
  end.

(** A directory that can be spliced into a glob pattern and joined with a
    name as it is. *)
Definition literal (dir : string) : bool := tidy dir && glob_plain dir.

(** A base name under which an archive can be unzipped: one component, that
    stands for itself in a pattern. *)
Definition plain_name (f : string) : bool :=
  component f && Path.no_slash f && glob_plain f.

(** An archive path the run can work on as the model has it. *)
Definition proper (p : string) : bool :=
  tidy p && plain_name (Path.basename p ".zip").

(** Archives that do not get in each other's way in the scratch root: no two
    share a base name, and no extraction directory is the staging path of
    another archive. *)
Definition apart (archives : list string) : Prop :=
  NoDup (((λ p, Path.basename p ".zip") <$> archives) ++
         ((λ p, Path.basename p ".zip" +:+ ".zip.new") <$> archives)).

(** The name of an entry that [extract-zip] writes below the directory it
    unzips into, under the name as spelled: a relative path that needs no
    normalising, without a backslash, and not below [__MACOSX], which the
    package skips. *)
Definition entry_name_ok (n : string) : bool :=
  forallb component (Path.split n) &&
  negb (bool_decide ("\"%char ∈ list_ascii_of_string n)) &&
  negb (bool_decide (head (Path.split n) = Some "__MACOSX")).

(** Entries that unzip without a collision: the names are different, and no
    file entry has a name that another entry needs as a directory. *)
Definition coherent (es : list Entry) : Prop :=
  Forall (λ e, entry_name_ok (ze_name e) = true) es ∧
  NoDup (ze_name <$> es) ∧
  Forall (λ e1, ze_dir e1 = false →
                Forall (λ e2, Path.under (ze_name e1) (ze_name e2) = false) es) es.

#[global] Instance coherent_dec es : Decision (coherent es).
Proof. unfold coherent. apply _. Defined.

(** A world in which a run starts in good order: no removal is outstanding,
    nothing is on disk at the scratch root or below it, and neither the
    service directory nor a path above it is a file. *)
Definition quiet (this : Plugin) (w : World) : Prop :=
  let repackDir := serviceDir this +:+ "/.repack" in
  pending w = [] ∧
  map_Forall (λ k _, k ≠ repackDir ∧ Path.under repackDir k = false) (fs w) ∧
  Forall (λ d, match fs w !! d with Some (NFile _ _ _) => False | _ => True end)
         (Path.ancestors (serviceDir this) ++ [serviceDir this]).

#[global] Instance quiet_dec this w : Decision (quiet this w).
Proof.
  unfold quiet. apply and_dec; [apply _|]. apply and_dec; [apply _|].
  apply Forall_dec. intros d. destruct (fs w !! d) as [[]|]; apply _.
Defined.

(** The archive at [p], where there is one, holds [coherent] entries. *)
Definition sound (w : World) (p : string) : Prop :=
  match archive_at w p with
  | Some es => coherent es
  | None => True
  end.

#[global] Instance sound_dec w p : Decision (sound w p).
Proof. unfold sound. destruct (archive_at w p); apply _. Defined.

(** An orderly run: the service directory is [literal], the world is
    [quiet], and the archives of the batch have [proper] paths, are [apart]
    and are [sound]. *)
Definition orderly (this : Plugin) (archives : list string) (w : World) : Prop :=
  literal (serviceDir this) = true ∧
  quiet this w ∧
  Forall (λ p, proper p = true) archives ∧
  apart archives ∧
  Forall (sound w) archives.

#[global] Instance orderly_dec this archives w : Decision (orderly this archives w).
Proof. unfold orderly, apart. apply _. Defined.

(** ** A service to run the plugin on

    A service in [/svc] with two functions packaged individually, [a] and
    [c], and a third archive that is not a zip file.  The archive of [a]
    holds a directory entry [b], the file [b/file.txt] and the file [a.txt],
    stored in that order. *)
Module Scenario.

Definition bytes (s : string) : list Byte.byte := String.list_byte_of_string s.

(** A traversal order given by a table: a path ranks by the first row that
    it ends with. *)
Definition rank_by (table : list string) (p : string) : nat :=
  default (length table)
    (fst <$> list_find (λ x, is_Some (Path.strip_suffix x p)) table).

(** A machine on UTC whose file system lists names in ascending order, with
    the [zip] command on its path. *)
Definition utc : Platform :=
  mkPlatform 0 (rank_by ["a.txt"; "b"; "b/file.txt"]) (λ _, false)
    true (rank_by ["a.txt"; "b"; "b/file.txt"]).

(** The same machine without the [zip] command. *)
Definition utc_node : Platform :=
  mkPlatform 0 (rank_by ["a.txt"; "b"; "b/file.txt"]) (λ _, false)
    false (rank_by ["a.txt"; "b"; "b/file.txt"]).



(** A machine on UTC, with the [zip] command, whose file system lists [b]
    before [a.txt]. *)
Definition utc_hashed : Platform :=
  mkPlatform 0 (rank_by ["b"; "b/file.txt"; "a.txt"]) (λ _, false)
    true (rank_by ["b"; "b/file.txt"; "a.txt"]).


Definition this : Plugin := mkPlugin "/svc" None ["a"; "c"] true "svc".

Definition a_entries : list Entry :=
  [mkEntry "b" true (Raw []) 1700000000000;
   mkEntry "b/file.txt" false (Raw (bytes "hello")) 1700000000001;
   mkEntry "a.txt" false (Raw (bytes "x")) 1700000000002].

Definition c_entries : list Entry :=
  [mkEntry "lib" true (Raw []) 1700000000003;
   mkEntry "index.js" false (Raw (bytes "exports")) 1700000000004].

Definition a_zip : string := "/svc/.serverless/a.zip".
Definition bad_zip : string := "/svc/.serverless/bad.zip".
Definition c_zip : string := "/svc/.serverless/c.zip".

Definition disk : FS :=
  list_to_map
    [("/svc", NDir 1 1);
     ("/svc/.serverless", NDir 1 1);
     (a_zip, NFile (Zip a_entries) 2 2);
     (bad_zip, NFile (Raw (bytes "not a zip")) 2 2);
     (c_zip, NFile (Zip c_entries) 2 2)].

Definition w0 : World := mkWorld ∅ disk 1700000001000 [] [].




(** What the glob of the second hook finds: the two function archives and
    an archive that another plugin added. *)
Definition found : list string :=
  [a_zip; "/svc/.serverless/custom-resources.zip"; c_zip].


End Scenario.

(** ** Function names, and what repacking makes of an archive *)

(** The [functionNames] of [getFunctionArchives]: the function named on the
    command line when there is one, every function of the service otherwise.
    An empty string is no name. *)
Definition functionNames (this : Plugin) : list string :=
  match options_function this with
  | Some f => if decide (f = "") then getAllFunctions this else [f]
  | None => getAllFunctions this
  end.

(** What repacking makes of the entries [es] of an archive: its file entries
    that have a name, each with the fixed time for its own. *)
Definition restamped (time : Z) (es : list Entry) : list Entry :=
  (λ e, mkEntry (ze_name e) false (ze_data e) time)
    <$> filter (λ e, ze_dir e = false ∧ ze_name e ≠ "") es.



(** The order of the traversal of [dir], on entries. *)
Definition entry_le (pf : Platform) (dir : string) (e1 e2 : Entry) : Prop :=
  rank_le pf (dir +:+ "/" +:+ ze_name e1) (dir +:+ "/" +:+ ze_name e2).

#[global] Instance entry_le_dec pf dir : RelDecision (entry_le pf dir).
Proof. intros e1 e2. unfold entry_le. apply _. Defined.


(** Nothing is on disk below the directory [dir]. *)
Definition vacant (dir : string) (t : FS) : Prop :=
  ∀ k, Path.under dir k = true → t !! k = None.

(** ** The service with a third archive

    The service of [Scenario] with an archive below [.serverless] that is
    not a function archive, as another plugin leaves it there; and the
    archive of [a] in the form that repacking on UTC gives it. *)
Module Deployed.

Definition custom_zip : string := "/svc/.serverless/custom-resources.zip".

Definition custom_entries : list Entry :=
  [mkEntry "node_modules" true (Raw []) 1700000000005;
   mkEntry "handler.js" false (Raw (Scenario.bytes "handler")) 1700000000006].

Definition disk : FS :=
  list_to_map
    [("/svc", NDir 1 1);
     ("/svc/.serverless", NDir 1 1);
     (Scenario.a_zip, NFile (Zip Scenario.a_entries) 2 2);
     (Scenario.c_zip, NFile (Zip Scenario.c_entries) 2 2);
     (custom_zip, NFile (Zip custom_entries) 2 2)].

Definition w0 : World := mkWorld ∅ disk 1700000001000 [] [].




End Deployed.

(** * Properties *)

(** ** The model at work *)

Example split_absolute :
  Path.split "/svc/.serverless/a.zip" = [""; "svc"; ".serverless"; "a.zip"].
Proof. reflexivity. Qed.

Example basename_of_archive : Path.basename "/svc/.serverless/a.zip" ".zip" = "a".
Proof. reflexivity. Qed.

Example basename_that_is_the_extension :
  Path.basename "/svc/.serverless/.zip" ".zip" = ".zip".
Proof. reflexivity. Qed.

Example basename_trailing_slash : Path.basename "/svc/a.zip/" ".zip" = "a".
Proof. reflexivity. Qed.

Example resolve_parent :
  Path.resolve "/svc/.repack/a" "../a.zip.new" = "/svc/.repack/a.zip.new".
Proof. reflexivity. Qed.

Example ancestors_of_file :
  Path.ancestors "/svc/.repack/a/b/file.txt"
  = ["/svc"; "/svc/.repack"; "/svc/.repack/a"; "/svc/.repack/a/b"].
Proof. reflexivity. Qed.

Example first_of_february_1990_utc : Date_UTC 1990 1 1 = 633830400000.
Proof. reflexivity. Qed.

Example function_archives :
  getFunctionArchives Scenario.this = [Scenario.a_zip; Scenario.c_zip].
Proof. reflexivity. Qed.

(** The archiver reads [ZIPOPT] from the environment: in a process where it
    is not set, the same call on the same tree writes the directory entry. *)
Example zip_without_zipopt_keeps_directories :
  let tree : FS :=
    list_to_map [("/t/b", NDir 1 1);
                 ("/t/b/file.txt", NFile (Raw (Scenario.bytes "hello")) 1 1)] in
  ze_name <$> zip_entries Scenario.utc ∅ "/t" tree = ["b"; "b/file.txt"] ∧
  ze_name <$> zip_entries Scenario.utc {["ZIPOPT" := "-D"]} "/t" tree = ["b/file.txt"].
Proof. by vm_compute. Qed.

(** A run on the archive of [a]: the archive is rebuilt from its two files,
    [ZIPOPT] is set, the scratch root waits to be removed. *)
Example run_on_a :
  ∃ wf,
    repackFunctions Scenario.utc Scenario.this [Scenario.a_zip] Scenario.w0
      = Resolved tt wf ∧
    ze_name <$> default [] (archive_at wf Scenario.a_zip) = ["a.txt"; "b/file.txt"] ∧
    env wf !! "ZIPOPT" = Some "-D" ∧
    pending wf = ["/svc/.repack"] ∧
    log wf = ["Repacking functions for speed..."].
Proof. eexists. split; [vm_compute; reflexivity|]. by vm_compute. Qed.

(** Without a [zip] command [bestzip] builds the archive itself: the names
    come with [./] before them. *)
Example run_without_zip_command :
  ∃ wf,
    repackFunctions Scenario.utc_node Scenario.this [Scenario.c_zip] Scenario.w0
      = Resolved tt wf ∧
    ze_name <$> default [] (archive_at wf Scenario.c_zip) = ["./index.js"].
Proof. eexists. split; [vm_compute; reflexivity|]. by vm_compute. Qed.

(** An archive with nothing but a directory in it: the [zip] command finds
    nothing to do and the process exits; [bestzip] by itself writes an
    archive without entries and the run goes on. *)
Example directory_only_archive :
  let d_zip := "/svc/.serverless/d.zip" in
  let w := mkWorld ∅ (list_to_map [("/svc", NDir 1 1);
                                   ("/svc/.serverless", NDir 1 1);
                                   (d_zip, NFile (Zip [mkEntry "lib" true (Raw []) 5]) 2 2)])
             1700000001000 [] [] in
  (∃ wf, repackFunctions Scenario.utc Scenario.this [d_zip] w = Exited 1 wf) ∧
  (∃ wf, repackFunctions Scenario.utc_node Scenario.this [d_zip] w = Resolved tt wf ∧
         archive_at wf d_zip = Some []).
Proof.
  split.
  - eexists. vm_compute. reflexivity.
  - eexists. split; [vm_compute; reflexivity|]. by vm_compute.
Qed.

(** ** Strings and paths *)
Section path_facts.
Implicit Types s t r p x d f : string.

Lemma app_cons c s t : String c s +:+ t = String c (s +:+ t).
Proof. reflexivity. Qed.

Lemma app_nil_l s : "" +:+ s = s.
Proof. reflexivity. Qed.

Lemma app_assoc_s s t r : (s +:+ t) +:+ r = s +:+ (t +:+ r).
Proof. induction s as [|c s IH]; [done|]. by rewrite !app_cons, IH. Qed.

Lemma app_length_s s t : String.length (s +:+ t) = (String.length s + String.length t)%nat.
Proof. induction s as [|c s IH]; [done|]. rewrite app_cons. simpl. by rewrite IH. Qed.

Lemma app_inv_nil s t : s +:+ t = s → t = "".
Proof.
  intros H. apply (f_equal String.length) in H. rewrite app_length_s in H.
  destruct t; [done|]. simpl in H. lia.
Qed.

Lemma strip_prefix_app p r : Path.strip_prefix p (p +:+ r) = Some r.
Proof.
  induction p as [|c p IH]; [by destruct r|].
  rewrite app_cons. simpl. by rewrite Ascii.eqb_refl.
Qed.

Lemma strip_prefix_Some p s r : Path.strip_prefix p s = Some r ↔ s = p +:+ r.
Proof.
  split; [|intros ->; apply strip_prefix_app].
  revert s. induction p as [|c p IH]; intros s; simpl.
  - by intros [= ->].
  - destruct s as [|b s]; [done|].
    destruct (Ascii.eqb c b) eqn:E; [|done].
    apply Ascii.eqb_eq in E as ->. intros ->%IH. by rewrite app_cons.
Qed.

Lemma strip_suffix_Some x s r : Path.strip_suffix x s = Some r → s = r +:+ x.
Proof.
  revert r. induction s as [|c s IH]; intros r; simpl.
  - case_decide; [|done]. intros [= <-]. by subst.
  - case_decide as E; [intros [= <-]; by subst|].
    destruct (Path.strip_suffix x s) as [r'|] eqn:E'; [|done].
    intros [= <-]. by rewrite app_cons, <-(IH r').
Qed.

Lemma relative_Some d p r :
  Path.relative d p = Some r ↔ p = d +:+ "/" +:+ r ∧ r ≠ "".
Proof.
  unfold Path.relative.
  destruct (Path.strip_prefix (d +:+ "/") p) as [r'|] eqn:E.
  - apply strip_prefix_Some in E. rewrite app_assoc_s in E. subst p.
    destruct r' as [|c r'].
    + split; [done|]. intros [H Hr]. apply String.app_inj, String.app_inj in H. by subst.
    + split; [intros [= <-]; done|]. intros [H _].
      apply String.app_inj, String.app_inj in H. by subst.
  - split; [done|]. intros [-> _].
    by rewrite <-app_assoc_s, strip_prefix_app in E.
Qed.

Lemma under_true d p :
  Path.under d p = true ↔ ∃ r, p = d +:+ "/" +:+ r ∧ r ≠ "".
Proof.
  unfold Path.under. rewrite bool_decide_eq_true. unfold is_Some.
  by setoid_rewrite relative_Some.
Qed.

Lemma under_child d r : r ≠ "" → Path.under d (d +:+ "/" +:+ r) = true.
Proof. intros. apply under_true. eauto. Qed.

(** Below a subdirectory is below the directory. *)
Lemma under_sub d f p :
  Path.under (d +:+ "/" +:+ f) p = true → Path.under d p = true.
Proof.
  rewrite !under_true. intros (r & -> & Hr).
  exists (f +:+ "/" +:+ r). rewrite !app_assoc_s. split; [done|].
  destruct f; [done|]. by rewrite app_cons.
Qed.

Lemma under_irrefl d : Path.under d d = false.
Proof.
  apply not_true_iff_false. rewrite under_true. intros (r & H & _).
  symmetry in H. by apply app_inv_nil in H.
Qed.

Lemma split_nonempty s : Path.split s ≠ [].
Proof.
  destruct s as [|c s]; simpl; [done|].
  destruct (Ascii.eqb c Path.slash); [done|]. by destruct (Path.split s).
Qed.

Lemma split_no_slash f : Path.no_slash f = true → Path.split f = [f].
Proof.
  induction f as [|c f IH]; simpl; [done|].
  intros [Hc Hf]%andb_true_iff. apply negb_true_iff in Hc. by rewrite Hc, IH.
Qed.

Lemma split_app s t : Path.split (s +:+ "/" +:+ t) = Path.split s ++ Path.split t.
Proof.
  induction s as [|c s IH]; [done|].
  rewrite app_cons. simpl. destruct (Ascii.eqb c Path.slash).
  - by rewrite IH.
  - rewrite IH. pose proof (split_nonempty s). by destruct (Path.split s).
Qed.

Lemma join_cons_char c x xs : Path.join (String c x :: xs) = String c (Path.join (x :: xs)).
Proof. by destruct xs. Qed.

Lemma join_split s : Path.join (Path.split s) = s.
Proof.
  induction s as [|c s IH]; [done|]. simpl.
  pose proof (split_nonempty s).
  destruct (Ascii.eqb c Path.slash) eqn:E.
  - apply Ascii.eqb_eq in E as ->.
    destruct (Path.split s) eqn:Es; [done|]. simpl in *. by rewrite IH.
  - destruct (Path.split s) eqn:Es; [done|]. by rewrite join_cons_char, IH.
Qed.

Lemma split_components s : Forall (λ c, Path.no_slash c = true) (Path.split s).
Proof.
  induction s as [|c s IH]; simpl; [by repeat constructor|].
  destruct (Ascii.eqb c Path.slash) eqn:E; [by constructor|].
  destruct (Path.split s); [by repeat constructor; simpl; rewrite E|].
  inversion_clear IH. constructor; [|done]. simpl. by rewrite E.
Qed.

Lemma drop_trailing_empty_snoc (l : list string) x :
  x ≠ "" → Path.drop_trailing_empty (l ++ [x]) = l ++ [x].
Proof.
  intros Hx. induction l as [|y l IH]; simpl.
  - by destruct (decide (x = "")).
  - rewrite IH. by destruct l.
Qed.

Lemma drop_trailing_empty_Forall (P : string → Prop) (l : list string) :
  Forall P l → Forall P (Path.drop_trailing_empty l).
Proof.
  induction 1 as [|y l Hy Hl IH]; simpl; [done|].
  destruct (Path.drop_trailing_empty l).
  - destruct (decide (y = "")); by repeat constructor.
  - by constructor.
Qed.

Lemma no_slash_app s t :
  Path.no_slash (s +:+ t) = true → Path.no_slash s = true.
Proof.
  induction s as [|c s IH]; [done|]. rewrite app_cons. simpl.
  intros [-> ?]%andb_true_iff. simpl. auto.
Qed.

(** The directory of a child is its parent. *)
Lemma dirname_child d x f :
  x ≠ "" → Path.no_slash x = true → f ≠ "" → Path.no_slash f = true →
  Path.dirname ((d +:+ "/" +:+ x) +:+ "/" +:+ f) = d +:+ "/" +:+ x.
Proof.
  intros Hx Hsx Hf Hsf. unfold Path.dirname.
  rewrite split_app, (split_no_slash f) by done.
  rewrite drop_trailing_empty_snoc, removelast_last by done.
  rewrite split_app, (split_no_slash x) by done.
  rewrite drop_trailing_empty_snoc by done.
  by rewrite <-(split_no_slash x), <-split_app, join_split.
Qed.

(** [path.basename] never returns a slash. *)
Lemma basename_no_slash p ext : Path.no_slash (Path.basename p ext) = true.
Proof.
  unfold Path.basename.
  set (base := List.last _ _).
  assert (Hb : Path.no_slash base = true).
  { subst base. pose proof (drop_trailing_empty_Forall _ _ (split_components p)) as HF.
    induction HF as [|y l Hy Hl IH]; [done|]. simpl. by destruct l. }
  destruct (Path.strip_suffix ext base) as [stem|] eqn:E; [|done].
  apply strip_suffix_Some in E.
  destruct stem as [|c stem].
  - by destruct (decide (p = ext)).
  - rewrite E in Hb. by apply no_slash_app in Hb.
Qed.

(** Where [zip] writes when it is told [../f.zip.new] from inside the
    extraction directory of [f]: the staging path that [copyFileSync] reads. *)
Lemma resolve_staging sd f :
  f ≠ "" → Path.no_slash f = true →
  Path.resolve ((sd +:+ "/.repack") +:+ "/" +:+ f) ("../" +:+ f +:+ ".zip.new")
  = (sd +:+ "/.repack") +:+ "/" +:+ f +:+ ".zip.new".
Proof.
  intros Hf Hs. unfold Path.resolve.
  change ("../" +:+ f +:+ ".zip.new") with ("../" +:+ (f +:+ ".zip.new")).
  rewrite strip_prefix_app.
  change (sd +:+ "/.repack") with (sd +:+ "/" +:+ ".repack").
  by rewrite dirname_child.
Qed.

(** A directory is among those above its children. *)
Lemma ancestors_parent d x : d ≠ "" → d ∈ Path.ancestors (d +:+ "/" +:+ x).
Proof.
  intros Hd. unfold Path.ancestors. rewrite split_app.
  apply list_elem_of_filter. split; [done|].
  apply list_elem_of_fmap. exists (length (Path.split d)). split.
  - by rewrite take_app_length, join_split.
  - apply elem_of_seq. rewrite length_app.
    pose proof (split_nonempty d). pose proof (split_nonempty x).
    destruct (Path.split d), (Path.split x); simpl in *; try done; lia.
Qed.
End path_facts.

(** ** The file system *)
Section fs_facts.
Implicit Types t : FS.
Implicit Types k p q d : string.

Lemma set_fs_ext (f g : FS → FS) w : f (fs w) = g (fs w) → set_fs f w = set_fs g w.
Proof. unfold set_fs. by intros ->. Qed.

Lemma kept_refl t q : kept t t q.
Proof. by left. Qed.

Lemma kept_trans t1 t2 t3 q : kept t1 t2 q → kept t2 t3 q → kept t1 t3 q.
Proof.
  intros [H1|[H1 [n1 H1']]] [H2|[H2 [n2 H2']]].
  - left. congruence.
  - right. split; [congruence|eauto].
  - right. split; [done|]. exists n1. congruence.
  - congruence.
Qed.

Lemma kept_Some t t' q n : kept t t' q → t !! q = Some n → t' !! q = Some n.
Proof. intros [H|[H _]]; congruence. Qed.


Lemma lookup_mkdir_one now t d k :
  mkdir_one now t d !! k =
  if decide (k = d) then Some (default (NDir now now) (t !! k)) else t !! k.
Proof.
  unfold mkdir_one. case_decide as E.
  - subst k. destruct (t !! d) eqn:Ed; [done|]. by rewrite lookup_insert_eq.
  - destruct (t !! d); [done|]. by rewrite lookup_insert_ne.
Qed.

Lemma lookup_mkdir_fold now ds t k :
  foldl (mkdir_one now) t ds !! k =
  if decide (k ∈ ds) then Some (default (NDir now now) (t !! k)) else t !! k.
Proof.
  revert t. induction ds as [|d ds IH]; intros t; cbn [foldl].
  - case_decide as H; [by apply not_elem_of_nil in H|done].
  - rewrite IH, lookup_mkdir_one.
    destruct (decide (k = d)) as [->|Hne].
    + rewrite (decide_True (P := d ∈ d :: ds)) by apply list_elem_of_here.
      case_decide; [|done]. by destruct (t !! d).
    + destruct (decide (k ∈ ds)) as [Hin|Hin].
      * by rewrite decide_True by by apply list_elem_of_further.
      * rewrite decide_False; [done|]. by intros [?|?]%elem_of_cons.
Qed.

Lemma kept_mkdir_fold now ds t q : kept t (foldl (mkdir_one now) t ds) q.
Proof.
  unfold kept. rewrite lookup_mkdir_fold. case_decide; [|by left].
  destruct (t !! q); [by left|right; eauto].
Qed.

Lemma kept_mkdir_parent now f t q : kept t (mkdir_parent now f t) q.
Proof.
  unfold mkdir_parent. case_decide; [apply kept_refl|apply kept_mkdir_fold].
Qed.

Lemma lookup_write_entry now dir t e k :
  write_entry now dir t e !! k =
  if decide (ze_dir e = false ∧ k = dir +:+ "/" +:+ ze_name e)
  then Some (NFile (ze_data e) now now)
  else if decide (k ∈ entry_dirs dir e)
       then Some (default (NDir now now) (t !! k)) else t !! k.
Proof.
  unfold write_entry, entry_dirs, mkdir_p. cbv zeta.
  destruct (ze_dir e).
  - rewrite decide_False by (by intros [? _]). apply lookup_mkdir_fold.
  - case_decide as E.
    + destruct E as [_ E]. subst k. by rewrite lookup_insert_eq.
    + rewrite lookup_insert_ne by (intros <-; by apply E).
      apply lookup_mkdir_fold.
Qed.

(** Extraction into a subdirectory of [d] writes its files below [d] and
    leaves every other path as it was, or makes it a directory. *)
Lemma kept_write_entry now d f t e q :
  Path.under d q = false → kept t (write_entry now (d +:+ "/" +:+ f) t e) q.
Proof.
  intros Hq. unfold kept. rewrite lookup_write_entry.
  rewrite decide_False.
  - case_decide; [|by left]. destruct (t !! q); [by left|right; eauto].
  - intros [_ E]. subst q. rewrite !app_assoc_s, under_child in Hq; [done|].
    intros H. apply (f_equal String.length) in H.
    rewrite !app_length_s in H. simpl in H. lia.
Qed.

Lemma kept_extract_entries now d f es t q :
  Path.under d q = false →
  kept t (foldl (write_entry now (d +:+ "/" +:+ f)) t es) q.
Proof.
  intros Hq. revert t. induction es as [|e es IH]; intros t; simpl.
  - apply kept_refl.
  - eapply kept_trans; [by apply kept_write_entry|apply IH].
Qed.

Lemma lookup_rm_rf d t k :
  rm_rf d t !! k = if decide (k ≠ d ∧ Path.under d k = false) then t !! k else None.
Proof.
  unfold rm_rf. case_decide as H.
  - destruct (t !! k) as [n|] eqn:E.
    + by apply map_lookup_filter_Some.
    + apply map_lookup_filter_None. by left.
  - apply map_lookup_filter_None. right. by intros x _ Hp.
Qed.

Lemma lookup_rm_rf_all ds t k :
  foldl (λ t d, rm_rf d t) t ds !! k =
  if decide (Forall (λ d, k ≠ d ∧ Path.under d k = false) ds) then t !! k else None.
Proof.
  revert t. induction ds as [|d ds IH]; intros t; cbn [foldl].
  - case_decide as H; [done|]. destruct H. constructor.
  - rewrite IH, lookup_rm_rf.
    repeat case_decide; try done; exfalso;
      match goal with
      | H : ¬ Forall _ (_ :: _) |- _ => apply H; by constructor
      | H : Forall _ (_ :: _) |- _ => by inversion_clear H
      end.
Qed.

Lemma lookup_touch time t p k :
  touch time t p !! k = if decide (k = p) then set_times time <$> t !! k else t !! k.
Proof.
  unfold touch. case_decide as E.
  - subst. destruct (t !! p) eqn:Ep; simpl; [by rewrite lookup_insert_eq|done].
  - destruct (t !! p); [by rewrite lookup_insert_ne|done].
Qed.

Lemma set_times_twice time n : set_times time (set_times time n) = set_times time n.
Proof. by destruct n. Qed.

Lemma lookup_touch_fold time l t k :
  foldl (touch time) t l !! k =
  if decide (k ∈ l) then set_times time <$> t !! k else t !! k.
Proof.
  revert t. induction l as [|p l IH]; intros t; cbn [foldl].
  - case_decide as H; [by apply not_elem_of_nil in H|done].
  - rewrite IH, lookup_touch.
    destruct (decide (k = p)) as [->|Hne].
    + rewrite (decide_True (P := p ∈ p :: l)) by apply list_elem_of_here.
      case_decide; [|done]. destruct (t !! p); simpl; [|done].
      by rewrite set_times_twice.
    + destruct (decide (k ∈ l)) as [Hin|Hin].
      * by rewrite decide_True by by apply list_elem_of_further.
      * rewrite decide_False; [done|]. by intros [?|?]%elem_of_cons.
Qed.

Lemma lookup_touch_below dir time t k :
  touch_below dir time t !! k =
  if Path.under dir k then set_times time <$> t !! k else t !! k.
Proof.
  unfold touch_below. rewrite map_lookup_imap.
  destruct (t !! k); simpl; by destruct (Path.under dir k).
Qed.

Lemma lookup_below dir t k :
  below dir t !! k = if Path.under dir k then t !! k else None.
Proof.
  unfold below. destruct (Path.under dir k) eqn:H.
  - destruct (t !! k) as [n|] eqn:E.
    + by apply map_lookup_filter_Some.
    + apply map_lookup_filter_None. by left.
  - apply map_lookup_filter_None. right. intros x _ Hp. simpl in Hp. congruence.
Qed.
End fs_facts.

(** ** The steps of the loop *)
Section steps.
Context (pf : Platform).
Implicit Types w : World.
Implicit Types t : FS.

Lemma forEach_app {A} (l1 l2 : list A) (f : A → M unit) w :
  forEach (l1 ++ l2) f w =
  match forEach l1 f w with
  | Resolved _ w1 => forEach l2 f w1
  | o => o
  end.
Proof.
  revert w. induction l1 as [|x l1 IH]; intros w; simpl; [done|].
  unfold mbind, M_bind, bind. destruct (f x w); [apply IH|done..].
Qed.

Lemma settle_fs w k :
  fs (settle w) !! k =
  if decide (Forall (λ d, k ≠ d ∧ Path.under d k = false) (pending w))
  then fs w !! k else None.
Proof. apply lookup_rm_rf_all. Qed.

Lemma settle_idle w : pending w = [] → settle w = w.
Proof. destruct w as [e t c l p]. simpl. by intros ->. Qed.

(** A path the glob returns is a path that exists below the directory. *)
Lemma elem_of_glob_all dir t k :
  k ∈ glob_all pf dir t ↔ Path.under dir k = true ∧ is_Some (t !! k).
Proof.
  unfold glob_all, traverse. rewrite merge_sort_Permutation.
  rewrite list_elem_of_fmap. split.
  - intros [[k' n] [-> H]]. apply elem_of_map_to_list in H.
    rewrite lookup_below in H. simpl. destruct (Path.under dir k'); eauto. done.
  - intros [Hu [n Hn]]. exists (k, n). split; [done|].
    apply elem_of_map_to_list. by rewrite lookup_below, Hu.
Qed.

Lemma forEach_utimes time l w :
  (∀ p, p ∈ l → is_Some (fs w !! p)) →
  forEach l (λ file, utimesSync file time time) w
  = Resolved tt (set_fs (λ t, foldl (touch time) t l) w).
Proof.
  revert w. induction l as [|p l IH]; intros w Hl; simpl.
  - by destruct w.
  - unfold mbind, M_bind, bind.
    assert (is_Some (fs w !! p)) as [n Hn] by apply Hl, list_elem_of_here.
    assert (utimesSync p time time w = Resolved tt (set_fs (λ t, touch time t p) w)) as ->.
    { unfold utimesSync, touch, set_fs. rewrite Hn. by destruct n. }
    rewrite IH.
    + by destruct w.
    + intros p' Hp'. simpl. rewrite lookup_touch.
      assert (is_Some (fs w !! p')) as [n' Hn'] by by apply Hl, list_elem_of_further.
      case_decide; rewrite Hn'; eauto.
Qed.

(** The timestamp step never fails, and it touches every node below the
    extraction directory, whatever its kind. *)
Lemma resetTimestamps_eq dir time w :
  resetTimestamps pf dir time w = Resolved tt (set_fs (touch_below dir time) w).
Proof.
  unfold resetTimestamps, mbind, M_bind, bind.
  rewrite forEach_utimes by (intros p Hp; by apply elem_of_glob_all in Hp as [_ ?]).
  f_equal. apply set_fs_ext. apply map_eq. intros k.
  rewrite lookup_touch_fold, lookup_touch_below.
  destruct (Path.under dir k) eqn:Hu.
  - destruct (fs w !! k) eqn:Hk.
    + rewrite decide_True; [done|]. apply elem_of_glob_all. eauto.
    + by case_decide.
  - rewrite decide_False; [done|]. rewrite elem_of_glob_all. intros [? _]. congruence.
Qed.

(** The staging path is not the archive: it ends in [.zip.new], which the
    base name of the archive, cut before [.zip], cannot make up for. *)
Lemma staging_under sd p :
  Path.under (sd +:+ "/.repack") (staging (sd +:+ "/.repack") p) = true.
Proof.
  unfold staging. apply under_child.
  intros H. apply (f_equal String.length) in H.
  rewrite app_length_s in H. simpl in H. lia.
Qed.

(** One pass of the loop, in closed form. *)
Lemma repackOne_eq sd time p w :
  Path.basename p ".zip" ≠ "" →
  repackOne pf (sd +:+ "/.repack") time p w
  = job_outcome (sd +:+ "/.repack") p w (job pf (sd +:+ "/.repack") time p w).
Proof.
  intros Hf.
  pose proof (resolve_staging sd _ Hf (basename_no_slash p ".zip")) as Hres.
  destruct w as [e t c l pd].
  unfold repackOne, unzipArchive, repackZip, copyRepacked, job, job_outcome.
  unfold mbind, M_bind, bind, await, extract.
  set (R := sd +:+ "/.repack") in *.
  set (f := Path.basename p ".zip") in *.
  set (D := R +:+ "/" +:+ f) in *.
  cbn [settle set_fs set_pending fs env clock log pending].
  set (s := foldl _ t pd).
  destruct (s !! p) as [[[b|es] a m|a m]|] eqn:Hp; try done.
  rewrite resetTimestamps_eq.
  unfold catch, zip, console_error, process_exit, copyFileSync.
  unfold settle, set_fs, set_pending, set_log.
  cbn [cwd destination fs env clock log pending foldl].
  rewrite Hres. change (staging R p) with (R +:+ "/" +:+ f +:+ ".zip.new").
  fold (extracted c D es s).
  set (t2 := touch_below D time _).
  destruct (zip_fault pf _); [done|].
  destruct (built pf e D t2) as [staged|] eqn:Hz; [|done].
  cbn [fs clock env log pending]. rewrite lookup_insert_eq.
  destruct (<[_ := _]> t2 !! p) as [[c' a' m'|a' m']|]; done.
Qed.
End steps.

(** ** One pass, and the loop *)
Section loop.
Context (pf : Platform) (sd : string) (time : Z).
Implicit Types w : World.
Implicit Types t : FS.
Implicit Types p q : string.

Local Abbreviation R := (sd +:+ "/.repack").

Lemma job_Replaced p w t2 staged :
  job pf R time p w = Replaced t2 staged →
  ∃ es a m,
    fs (settle w) !! p = Some (NFile (Zip es) a m) ∧
    t2 = touch_below (R +:+ "/" +:+ Path.basename p ".zip") time
           (extracted (clock w) (R +:+ "/" +:+ Path.basename p ".zip") es (fs (settle w))) ∧
    built pf (env w) (R +:+ "/" +:+ Path.basename p ".zip") t2 = Some staged ∧
    zip_fault pf (staging R p) = false.
Proof.
  unfold job.
  destruct (fs (settle w) !! p) as [[[b|es] a m|a m]|] eqn:Hp; try done.
  destruct (zip_fault pf (staging R p)) eqn:Hz; [done|].
  destruct (built pf (env w) _ _) as [l0|] eqn:He; [|done].
  destruct (<[_ := _]> _ !! p) as [[c' a' m'|a' m']|]; intros [= <- <-];
    by exists es, a, m.
Qed.

(** The tree a pass stages leaves the paths outside the scratch root as
    they were. *)
Lemma kept_staged_tree f es now t q :
  Path.under R q = false →
  kept t (touch_below (R +:+ "/" +:+ f) time (extracted now (R +:+ "/" +:+ f) es t)) q.
Proof.
  intros Hq.
  assert (Path.under (R +:+ "/" +:+ f) q = false) as Hq'.
  { destruct (Path.under (R +:+ "/" +:+ f) q) eqn:E; [|done].
    apply under_sub in E. congruence. }
  unfold kept. rewrite lookup_touch_below, Hq'. fold (kept t (extracted now (R +:+ "/" +:+ f) es t) q).
  unfold extracted. eapply kept_trans; [apply kept_mkdir_fold|].
  by apply kept_extract_entries.
Qed.

(** What one pass does to the paths outside the scratch root: the archive
    is replaced when the pass resolves; nothing else changes. *)
Lemma job_kept p w q :
  Path.under R q = false →
  q ≠ p ∨ (∀ t2 staged, job pf R time p w ≠ Replaced t2 staged) →
  kept (fs (settle w)) (fs (final (job_outcome R p w (job pf R time p w)))) q.
Proof.
  intros Hq Hcase.
  assert (Hstg : q ≠ staging R p).
  { intros ->. by rewrite staging_under in Hq. }
  destruct (job pf R time p w) as [|t2|t2 staged|t2 staged] eqn:Hj; simpl.
  - apply kept_mkdir_fold.
  - unfold job in Hj.
    destruct (fs (settle w) !! p) as [[[b|es] a m|a m]|] eqn:Hp; try done.
    assert (t2 = touch_below (R +:+ "/" +:+ Path.basename p ".zip") time
              (extracted (clock w) (R +:+ "/" +:+ Path.basename p ".zip") es (fs (settle w)))) as ->.
    { destruct (zip_fault pf _); [congruence|].
      destruct (built pf _ _ _); [|congruence].
      by destruct (<[_ := _]> _ !! p) as [[c' a' m'|a' m']|]. }
    by apply kept_staged_tree.
  - unfold job in Hj.
    destruct (fs (settle w) !! p) as [[[b|es] a m|a m]|] eqn:Hp; try done.
    assert (t2 = touch_below (R +:+ "/" +:+ Path.basename p ".zip") time
              (extracted (clock w) (R +:+ "/" +:+ Path.basename p ".zip") es (fs (settle w)))) as ->.
    { destruct (zip_fault pf _); [congruence|].
      destruct (built pf _ _ _); [|congruence].
      destruct (<[_ := _]> _ !! p) as [[c' a' m'|a' m']|]; congruence. }
    eapply kept_trans; [by apply kept_staged_tree|].
    left. by rewrite lookup_insert_ne.
  - destruct Hcase as [Hne|Hno]; [|by destruct (Hno t2 staged)].
    apply job_Replaced in Hj as (es & a & m & Hp & -> & _).
    eapply kept_trans; [by apply kept_staged_tree|].
    left. unfold copyFile_filled, copyFile_truncated.
    by rewrite !lookup_insert_ne.
Qed.

(** Whatever a pass does, it leaves the environment and the clock alone and
    nothing outstanding. *)
Lemma repackOne_state d p w :
  let wf := final (repackOne pf d time p w) in
  env wf = env w ∧ clock wf = clock w ∧ pending wf = [].
Proof.
  destruct w as [e t c l pd].
  unfold repackOne, unzipArchive, repackZip, copyRepacked.
  unfold mbind, M_bind, bind, await, extract.
  cbn [settle set_fs set_pending fs env clock log pending].
  destruct (_ !! p) as [[[b|es] a m|a m]|]; try done.
  rewrite resetTimestamps_eq.
  unfold catch, zip, console_error, process_exit, copyFileSync.
  unfold settle, set_fs, set_pending, set_log.
  cbn [cwd destination fs env clock log pending foldl].
  destruct (zip_fault pf _); [done|].
  destruct (built pf e _ _); [|done].
  cbn [fs clock env log pending].
  repeat case_match; done.
Qed.

(** Whatever a pass does, the scratch root is on disk when it ends. *)
Lemma repackOne_scratch d p w :
  d ≠ "" → is_Some (fs (final (repackOne pf d time p w)) !! d).
Proof.
  intros Hd.
  destruct w as [e t c l pd].
  unfold repackOne, unzipArchive, repackZip, copyRepacked.
  unfold mbind, M_bind, bind, await, extract.
  cbn [settle set_fs set_pending fs env clock log pending].
  set (s := foldl _ t pd).
  set (D := d +:+ "/" +:+ Path.basename p ".zip").
  assert (H0 : is_Some (mkdir_p c D s !! d)).
  { unfold mkdir_p. rewrite lookup_mkdir_fold. rewrite decide_True; [eauto|].
    apply elem_of_app. left. by apply ancestors_parent. }
  assert (Hu : Path.under D d = false).
  { destruct (Path.under D d) eqn:E; [|done].
    apply under_sub in E. by rewrite under_irrefl in E. }
  assert (H1 : ∀ es, is_Some (foldl (write_entry c D) (mkdir_p c D s) es !! d)).
  { intros es. destruct H0 as [n Hn]. exists n.
    eapply kept_Some; [|done]. apply kept_extract_entries, under_irrefl. }
  destruct (s !! p) as [[[b|es] a m|a m]|]; try done.
  rewrite resetTimestamps_eq.
  unfold catch, zip, console_error, process_exit, copyFileSync.
  unfold settle, set_fs, set_pending, set_log.
  cbn [cwd destination fs env clock log pending foldl].
  assert (H2 : is_Some (touch_below D time (foldl (write_entry c D) (mkdir_p c D s) es) !! d)).
  { by rewrite lookup_touch_below, Hu. }
  destruct (zip_fault pf _); [done|].
  destruct (built pf e _ _); [|done].
  cbn [fs clock env log pending].
  repeat case_match; cbn [final fs];
    unfold copyFile_filled, copyFile_truncated; rewrite ?(lookup_insert _ _ d);
    repeat case_decide; eauto.
Qed.

Lemma loop_scratch d zips w :
  d ≠ "" → zips ≠ [] →
  is_Some (fs (final (forEach zips (repackOne pf d time) w)) !! d).
Proof.
  intros Hd. revert w. induction zips as [|p zips IH]; intros w Hz; [done|].
  cbn [forEach]. unfold mbind, M_bind, bind.
  pose proof (repackOne_scratch d p w Hd) as Hs.
  destruct (repackOne pf d time p w) as [[] w1|e w1|c w1]; [|done..].
  destruct zips as [|p' zips]; [done|]. by apply IH.
Qed.

Lemma loop_state d zips w :
  let wf := final (forEach zips (repackOne pf d time) w) in
  env wf = env w ∧ clock wf = clock w ∧
  pending wf = (if zips is [] then pending w else []).
Proof.
  revert w. induction zips as [|p zips IH]; intros w; [done|].
  cbn [forEach]. unfold mbind, M_bind, bind.
  pose proof (repackOne_state d p w) as (He & Hc & Hp).
  destruct (repackOne pf d time p w) as [[] w1|e w1|c w1]; [|done..].
  destruct (IH w1) as (He' & Hc' & Hp'). cbn [final] in *.
  repeat split; [congruence..|]. rewrite Hp'. by destruct zips.
Qed.

(** The loop replaces archives and writes below the scratch root; every
    other path it leaves as it was. *)
Lemma loop_kept zips w q :
  Forall named zips →
  Path.under R q = false → q ∉ zips →
  kept (fs (settle w)) (fs (settle (final (forEach zips (repackOne pf R time) w)))) q.
Proof.
  intros Hn Hq. revert w. induction Hn as [|p zips Hp Hn IH]; intros w Hnin.
  - apply kept_refl.
  - apply not_elem_of_cons in Hnin as [Hne Hnin].
    cbn [forEach]. unfold mbind, M_bind, bind.
    pose proof (repackOne_state R p w) as (_ & _ & Hpd).
    pose proof (job_kept p w q Hq) as Hk.
    rewrite <-repackOne_eq in Hk by done.
    destruct (repackOne pf R time p w) as [[] w1|e w1|c w1]; cbn [final] in *.
    + eapply kept_trans; [apply Hk; by left|].
      rewrite <-(settle_idle w1 Hpd) at 1. by apply IH.
    + rewrite (settle_idle w1) by done. apply Hk. by left.
    + rewrite (settle_idle w1) by done. apply Hk. by left.
Qed.

(** After a loop that resolved, every archive holds what the archiver made
    of some tree in that archive's extraction directory. *)
Lemma loop_rebuilt zips w wf :
  Forall named zips →
  Forall (λ p, Path.under R p = false) zips →
  forEach zips (repackOne pf R time) w = Resolved tt wf →
  ∀ p, p ∈ zips →
    ∃ t es, built pf (env w) (R +:+ "/" +:+ Path.basename p ".zip") t = Some es ∧
            fs wf !! p = Some (NFile (Zip es) (clock w) (clock w)).
Proof.
  intros Hn. revert w. induction Hn as [|p0 zips Hp0 Hn IH]; intros w Hout Hrun p Hin.
  - by apply not_elem_of_nil in Hin.
  - inversion_clear Hout as [|?? Hu0 Hout'].
    cbn [forEach] in Hrun. unfold mbind, M_bind, bind in Hrun.
    pose proof (repackOne_state R p0 w) as (He & Hc & Hpd).
    destruct (repackOne pf R time p0 w) as [[] w1|e w1|c w1] eqn:H1; [|done..].
    cbn [final] in *.
    destruct (decide (p ∈ zips)) as [Hin'|Hnin].
    { rewrite <-He, <-Hc. by apply (IH w1). }
    apply elem_of_cons in Hin as [->|?]; [|done].
    rewrite repackOne_eq in H1 by done.
    destruct (job pf R time p0 w) as [|t2|t2 staged|t2 staged] eqn:Hj; try done.
    apply job_Replaced in Hj as (es & a & m & Hp & -> & Hb & _).
    set (t2 := touch_below _ _ _) in *.
    exists t2, staged. split; [done|].
    assert (Hw1 : fs w1 !! p0 = Some (NFile (Zip staged) (clock w) (clock w))).
    { injection H1 as <-. cbn [fs]. unfold copyFile_filled. by rewrite lookup_insert_eq. }
    pose proof (loop_kept zips w1 p0 Hn Hu0 Hnin) as Hk.
    pose proof (loop_state R zips w1) as (_ & _ & Hpf).
    rewrite Hrun in Hk, Hpf. cbn [final] in Hk, Hpf.
    rewrite (settle_idle wf) in Hk by (destruct zips; congruence).
    rewrite (settle_idle w1) in Hk by done.
    by eapply kept_Some.
Qed.

(** A property of an archive that every output of the archiver has is not
    lost in a later pass: the pass for another archive leaves it alone, and
    the pass for this archive either replaces it by an output of the
    archiver or leaves it alone. *)
Lemma pass_archive_inv (Q : list Entry → Prop) p q w :
  named q → Path.under R p = false →
  (∀ t es, built pf (env w) (extraction R p) t = Some es → Q es) →
  (∃ es, archive_at (settle w) p = Some es ∧ Q es) →
  ∃ es, archive_at (final (repackOne pf R time q w)) p = Some es ∧ Q es.
Proof.
  intros Hq Hu HQ (es & Hes & HQes).
  assert (Hkeep : kept (fs (settle w)) (fs (final (repackOne pf R time q w))) p →
                  ∃ es, archive_at (final (repackOne pf R time q w)) p = Some es ∧ Q es).
  { intros Hk. exists es. split; [|done]. unfold archive_at in *.
    destruct (fs (settle w) !! p) as [n|] eqn:Hn; [|done].
    by rewrite (kept_Some _ _ _ _ Hk Hn). }
  rewrite repackOne_eq in * by done.
  destruct (decide (p = q)) as [->|Hne]; [|apply Hkeep, job_kept; auto].
  destruct (job pf R time q w) as [|t2|t2 staged|t2 staged] eqn:Hj;
    try (apply Hkeep; rewrite <-Hj; apply job_kept; [done|right; congruence]).
  apply job_Replaced in Hj as (es' & a & m & _ & -> & Hb & _).
  exists staged. split; [|by eapply HQ].
  cbn [job_outcome final]. unfold archive_at, copyFile_filled. cbn [fs].
  by rewrite lookup_insert_eq.
Qed.

Lemma loop_archive_inv (Q : list Entry → Prop) p zips w :
  Forall named zips → Path.under R p = false →
  (∀ t es, built pf (env w) (extraction R p) t = Some es → Q es) →
  (∃ es, archive_at (settle w) p = Some es ∧ Q es) →
  ∃ es, archive_at (settle (final (forEach zips (repackOne pf R time) w))) p = Some es ∧ Q es.
Proof.
  intros Hn Hu. revert w. induction Hn as [|q zips Hq Hn IH]; intros w HQ HI; [done|].
  cbn [forEach]. unfold mbind, M_bind, bind.
  pose proof (repackOne_state R q w) as (He & _ & Hpd).
  pose proof (pass_archive_inv Q p q w Hq Hu HQ HI) as H1.
  destruct (repackOne pf R time q w) as [[] w1|e w1|c w1]; cbn [final] in *.
  - apply IH; [by rewrite He|by rewrite settle_idle].
  - by rewrite settle_idle.
  - by rewrite settle_idle.
Qed.

(** The same for a whole run of which the passes up to that of [p] have
    resolved: however the run ends, the archive at [p] is an output of the
    archiver. *)
Lemma loop_rebuilt_kept (Q : list Entry → Prop) pre p post w w2 :
  Forall named (pre ++ p :: post) →
  Forall (λ q, Path.under R q = false) (pre ++ [p]) →
  (∀ t es, built pf (env w) (extraction R p) t = Some es → Q es) →
  forEach (pre ++ [p]) (repackOne pf R time) w = Resolved tt w2 →
  let wf := final (forEach (pre ++ p :: post) (repackOne pf R time) w) in
  pending wf = [] ∧ ∃ es, archive_at wf p = Some es ∧ Q es.
Proof.
  cbv zeta. intros Hn Hu HQ Hrun.
  assert (Hn' : Forall named (pre ++ [p]) ∧ Forall named post).
  { apply Forall_app in Hn as [? Hn]. inversion_clear Hn.
    split; [apply Forall_app; by repeat constructor|done]. }
  destruct Hn' as [Hn1 Hn2].
  pose proof (loop_state R (pre ++ [p]) w) as (He & _ & Hpd).
  rewrite Hrun in He, Hpd. cbn [final] in He, Hpd.
  assert (Hpd2 : pending w2 = []) by (by destruct pre).
  assert (Hp : Path.under R p = false).
  { apply Forall_app in Hu as [_ Hu]. by inversion_clear Hu. }
  destruct (loop_rebuilt _ _ _ Hn1 Hu Hrun p) as (t & es & Hb & Ht).
  { apply elem_of_app. right. apply list_elem_of_here. }
  replace (pre ++ p :: post) with ((pre ++ [p]) ++ post) by by rewrite <-app_assoc.
  rewrite forEach_app, Hrun.
  pose proof (loop_state R post w2) as (_ & _ & Hpd3).
  assert (Hpd4 : pending (final (forEach post (repackOne pf R time) w2)) = []).
  { rewrite Hpd3. by destruct post. }
  split; [done|].
  rewrite <-(settle_idle _ Hpd4).
  apply loop_archive_inv; [done|done|by rewrite He|].
  rewrite settle_idle by done. exists es. split; [|exact (HQ t es Hb)].
  unfold archive_at. by rewrite Ht.
Qed.
End loop.

(** ** The archiver *)
Section archiver.
Context (pf : Platform).

#[local] Instance rank_le_trans : Transitive (rank_le pf).
Proof. intros a b c. unfold rank_le. lia. Qed.

#[local] Instance rank_le_total : Total (rank_le pf).
Proof. intros a b. unfold rank_le. lia. Qed.

Lemma omap_Forall {A B} (f : A → option B) (P : B → Prop) (l : list A) :
  (∀ x y, f x = Some y → P y) → Forall P (omap f l).
Proof.
  intros H. induction l as [|x l IH]; simpl; [constructor|].
  destruct (f x) eqn:E; [constructor; eauto|done].
Qed.

Lemma omap_StronglySorted {A B} (f : A → option B) (g : B → A) (S : relation A) (l : list A) :
  (∀ x y, f x = Some y → g y = x) →
  StronglySorted S l → StronglySorted (λ a b, S (g a) (g b)) (omap f l).
Proof.
  intros Hg. induction 1 as [|x l Hl IH Hx]; simpl; [constructor|].
  destruct (f x) as [y|] eqn:E; [|done].
  constructor; [done|].
  apply Forall_forall. intros y' Hy'.
  apply list_elem_of_omap in Hy' as (x' & Hx' & E').
  rewrite (Hg _ _ E), (Hg _ _ E').
  rewrite Forall_forall in Hx. auto.
Qed.

Lemma entry_of_path nodirs dir t p e :
  entry_of nodirs dir t p = Some e → dir +:+ "/" +:+ ze_name e = p.
Proof.
  unfold entry_of. destruct (Path.relative dir p) as [rel|] eqn:Hr; [|done].
  apply relative_Some in Hr as [-> _]. simpl.
  destruct (t !! _) as [[c a m|a m]|]; simpl; [by intros [= <-]| |done].
  destruct nodirs; [done|by intros [= <-]].
Qed.

Lemma entry_of_file dir t p e :
  entry_of true dir t p = Some e → ze_dir e = false.
Proof.
  unfold entry_of. destruct (Path.relative dir p) as [rel|]; [|done]. simpl.
  destruct (t !! _) as [[c a m|a m]|]; simpl; [by intros [= <-]|done..].
Qed.

(** With [-D] in [ZIPOPT] the archiver writes no directory entry. *)
Lemma zip_entries_files_only e dir t :
  zip_no_dir_entries e = true → files_only (zip_entries pf e dir t).
Proof.
  intros He. unfold files_only, zip_entries. rewrite He.
  apply omap_Forall. intros p x. apply entry_of_file.
Qed.

(** The archiver writes its entries in the order of the traversal. *)
Lemma zip_entries_in_traversal_order e dir t :
  in_traversal_order pf dir (zip_entries pf e dir t).
Proof.
  unfold in_traversal_order, zip_entries.
  apply (omap_StronglySorted _ (λ x, dir +:+ "/" +:+ ze_name x)).
  - intros p x. apply entry_of_path.
  - unfold glob_all, traverse. apply StronglySorted_merge_sort; apply _.
Qed.



(** With the [zip] command the archive is what the command makes of the
    tree, and it has an entry. *)
Lemma built_native e dir t es :
  native_zip pf = true →
  built pf e dir t = Some es → es = zip_entries pf e dir t ∧ es ≠ [].
Proof.
  unfold built. intros ->.
  destruct (zip_entries pf e dir t) eqn:E; [done|]. by intros [= <-].
Qed.

Lemma built_node e dir t es :
  native_zip pf = false →
  built pf e dir t = Some es → es = node_entries pf dir t.
Proof. unfold built. intros ->. by intros [= <-]. Qed.


End archiver.

(** ** [repackFunctions] *)
Section run.
Context (pf : Platform) (this : Plugin).
Implicit Types w : World.

Local Abbreviation R := (serviceDir this +:+ "/.repack").
Local Abbreviation time := (new_Date pf 1990 1 1).

Lemma repackFunctions_eq archives w :
  repackFunctions pf this archives w =
  match forEach archives (repackOne pf R time) (started this w) with
  | Resolved _ w1 => Resolved tt (set_pending (λ l, l ++ [R]) w1)
  | o => o
  end.
Proof.
  unfold repackFunctions, mbind, M_bind, bind. simpl.
  fold (started this w).
  by destruct (forEach archives _ _) as [[] ?|? ?|? ?].
Qed.

Lemma started_zipopt w : zip_no_dir_entries (env (started this w)) = true.
Proof.
  unfold zip_no_dir_entries. apply bool_decide_eq_true. simpl.
  apply lookup_insert_eq.
Qed.

End run.

(** ** Passes that fail *)
Section failing.
Context (pf : Platform) (this : Plugin).
Implicit Types w : World.

Local Abbreviation R := (serviceDir this +:+ "/.repack").
Local Abbreviation time := (new_Date pf 1990 1 1).



End failing.

(** ** The archives that are repacked *)
Section locator.
Implicit Types s t x : string.

Lemma app_inv_tail_s s t x : s +:+ x = t +:+ x → s = t.
Proof.
  revert t. induction s as [|c s IH]; intros [|c' t] H.
  - done.
  - apply (f_equal String.length) in H. rewrite app_nil_l, app_cons in H.
    simpl in H. rewrite app_length_s in H. lia.
  - apply (f_equal String.length) in H. rewrite app_nil_l, app_cons in H.
    simpl in H. rewrite app_length_s in H. lia.
  - rewrite !app_cons in H. injection H as Hc H. subst c'. f_equal. by apply IH.
Qed.

Lemma getFunctionArchives_NoDup this :
  NoDup (getAllFunctions this) → NoDup (getFunctionArchives this).
Proof.
  intros Hnd. unfold getFunctionArchives, isIndividialPackaging.
  destruct (package_individually this); [|apply NoDup_singleton].
  apply NoDup_fmap_2.
  - intros n1 n2 H. apply String.app_inj, String.app_inj in H.
    by apply app_inv_tail_s in H.
  - destruct (options_function this) as [f|]; [|done].
    case_decide; [done|apply NoDup_singleton].
Qed.

(** The two hooks, one after the other, run [repackFunctions] on the
    function archives and then on what else the glob finds. *)
Lemma hooks_in_order pf this w :
  (repackAllFunctions pf this;; repackAnyOtherZips pf this) w
  = (repackFunctions pf this (getFunctionArchives this);;
     ((λ w', repackFunctions pf this
               (otherZips this (glob_zip pf (serviceDir this +:+ "/.serverless") (fs w'))) w')
      : M unit)) w.
Proof. reflexivity. Qed.
End locator.

(** ** Determinism of the extracted tree *)
Section determinism.
Context (pf : Platform).
Implicit Types t : FS.
Implicit Types k p dir : string.
Implicit Types es : list Entry.

Lemma lookup_extract_entries now dir es t k :
  foldl (write_entry now dir) t es !! k =
  match file_data dir es k with
  | Some c => Some (NFile c now now)
  | None =>
      if decide (k ∈ es ≫= entry_dirs dir)
      then Some (default (NDir now now) (t !! k)) else t !! k
  end.
Proof.
  revert t. induction es as [|e es IH]; intros t; cbn [foldl file_data].
  - rewrite decide_False; [done|]. cbn. apply not_elem_of_nil.
  - rewrite IH. destruct (file_data dir es k) as [c|]; [done|].
    rewrite lookup_write_entry.
    rewrite bind_cons.
    destruct (decide (ze_dir e = false ∧ k = dir +:+ "/" +:+ ze_name e)) as [He|He].
    { by case_decide. }
    destruct (decide (k ∈ entry_dirs dir e)) as [H1|H1];
      destruct (decide (k ∈ es ≫= entry_dirs dir)) as [H2|H2].
    + rewrite decide_True by (apply elem_of_app; by left). by destruct (t !! k).
    + rewrite decide_True by (apply elem_of_app; by left). done.
    + rewrite decide_True by (apply elem_of_app; by right). done.
    + rewrite decide_False; [done|]. by intros [?|?]%elem_of_app.
Qed.

Lemma file_data_Some dir es k c :
  file_data dir es k = Some c →
  ∃ e, e ∈ es ∧ ze_dir e = false ∧ k = dir +:+ "/" +:+ ze_name e ∧ ze_data e = c.
Proof.
  induction es as [|e es IH]; cbn [file_data]; [done|].
  destruct (file_data dir es k) as [c'|].
  - intros [= <-]. destruct IH as (e' & ? & ?); [done|].
    exists e'. split; [by apply list_elem_of_further|done].
  - case_decide as He; [|done]. intros [= <-].
    exists e. split; [apply list_elem_of_here|]. by destruct He.
Qed.

Lemma file_data_elem dir es e :
  NoDup (ze_name <$> es) → e ∈ es → ze_dir e = false →
  file_data dir es (dir +:+ "/" +:+ ze_name e) = Some (ze_data e).
Proof.
  intros Hnd He Hf. induction es as [|e0 es IH]; [by apply not_elem_of_nil in He|].
  rewrite fmap_cons in Hnd. apply NoDup_cons in Hnd as [Hn0 Hnd].
  cbn [file_data].
  apply elem_of_cons in He as [->|He].
  - destruct (file_data dir es _) as [c|] eqn:E.
    + apply file_data_Some in E as (e' & He' & _ & Hk & _).
      apply String.app_inj, String.app_inj in Hk.
      destruct Hn0. rewrite Hk. by apply list_elem_of_fmap_2.
    + by rewrite decide_True.
  - by rewrite IH.
Qed.







(** Below the extraction directory, the tree that is handed to the archiver
    is made of the entries of the archive and of the fixed time alone. *)
Lemma lookup_staged_tree time now dir es t k :
  Path.under dir k = true → t !! k = None →
  touch_below dir time (extracted now dir es t) !! k =
  match file_data dir es k with
  | Some c => Some (NFile c time time)
  | None =>
      if decide (k ∈ es ≫= entry_dirs dir ∨ k ∈ Path.ancestors dir ++ [dir])
      then Some (NDir time time) else None
  end.
Proof.
  intros Hu Hk. rewrite lookup_touch_below, Hu.
  unfold extracted. rewrite lookup_extract_entries.
  destruct (file_data dir es k); [done|].
  unfold mkdir_p. rewrite lookup_mkdir_fold, Hk.
  destruct (decide (k ∈ es ≫= entry_dirs dir)) as [H1|H1];
    destruct (decide (k ∈ Path.ancestors dir ++ [dir])) as [H2|H2]; simpl.
  - by rewrite decide_True by by left.
  - by rewrite decide_True by by left.
  - by rewrite decide_True by by right.
  - rewrite decide_False; [done|]. by intros [?|?].
Qed.


End determinism.

(** ** Orderly inputs *)
Section orderly.
Context (this : Plugin).
Implicit Types w : World.

Local Abbreviation R := (serviceDir this +:+ "/.repack").

Lemma proper_named p : proper p = true → named p.
Proof.
  unfold proper, plain_name, component, named.
  rewrite !andb_true_iff, negb_true_iff, bool_decide_eq_false.
  intros (_ & (Hc & _) & _) E. apply Hc. rewrite E. apply list_elem_of_here.
Qed.

Lemma Forall_proper_named zips : Forall (λ p, proper p = true) zips → Forall named zips.
Proof. intros H. eapply Forall_impl; [exact H|]. intros p. apply proper_named. Qed.

Lemma quiet_pending w : quiet this w → pending w = [].
Proof. by intros [? _]. Qed.

(** In a quiet world whatever is on disk lies outside the scratch root. *)
Lemma quiet_outside w p :
  quiet this w → is_Some (fs w !! p) → p ≠ R ∧ Path.under R p = false.
Proof.
  intros (_ & H & _) [n Hn]. exact (H p n Hn).
Qed.

Lemma coherent_NoDup es : coherent es → NoDup (ze_name <$> es).
Proof. by intros (_ & ? & _). Qed.

End orderly.

(** ** The archive the [zip] command builds *)
Section native.
Context (pf : Platform).

Lemma built_native_eq e dir t :
  native_zip pf = true →
  built pf e dir t = match zip_entries pf e dir t with [] => None | es => Some es end.
Proof. unfold built. by intros ->. Qed.

End native.

(** ** Orderly runs *)
Section orderly_runs.
Context (this : Plugin).
Implicit Types w : World.
Implicit Types p q : string.

Local Abbreviation R := (serviceDir this +:+ "/.repack").

Lemma orderly_quiet archives w : orderly this archives w → quiet this w.
Proof. by intros (_ & ? & _). Qed.

Lemma orderly_pending archives w : orderly this archives w → pending w = [].
Proof. intros H. by eapply quiet_pending, orderly_quiet. Qed.

Lemma orderly_named archives w : orderly this archives w → Forall named archives.
Proof. intros (_ & _ & H & _). by apply Forall_proper_named. Qed.

Lemma orderly_NoDup archives w :
  orderly this archives w → NoDup ((λ p, Path.basename p ".zip") <$> archives).
Proof. intros (_ & _ & _ & H & _). by apply NoDup_app in H as [? _]. Qed.

Lemma orderly_idle archives w :
  orderly this archives w →
  Forall (λ p, Forall (λ d, p ≠ d ∧ Path.under d p = false) (pending w)) archives.
Proof.
  intros H. rewrite (orderly_pending _ _ H). apply Forall_forall. by constructor.
Qed.

(** In an orderly run the archives that are on disk lie outside the scratch
    root. *)
Lemma orderly_paths archives w :
  orderly this archives w →
  Forall (λ p, is_Some (archive_at w p)) archives →
  Forall (λ p, named p ∧ p ≠ R ∧ Path.under R p = false) archives.
Proof.
  intros Ho Hex. pose proof (orderly_named _ _ Ho) as Hn.
  rewrite Forall_forall in Hex, Hn |- *. intros p Hp. split; [by apply Hn|].
  apply (quiet_outside this w); [by eapply orderly_quiet|].
  destruct (Hex p Hp) as [es Hes]. unfold archive_at in Hes.
  destruct (fs w !! p); [eauto|done].
Qed.

Lemma orderly_coherent archives w p es :
  orderly this archives w → p ∈ archives → archive_at w p = Some es → coherent es.
Proof.
  intros (_ & _ & _ & _ & H) Hp Hes. rewrite Forall_forall in H.
  specialize (H p Hp). unfold sound in H. by rewrite Hes in H.
Qed.

(** The archive [p] of an orderly batch [pre ++ p :: post]: the archives
    before it have other base names, and it does not come again. *)
Lemma orderly_split pre p post w :
  orderly this (pre ++ p :: post) w →
  Forall (λ q, Path.basename q ".zip" ≠ Path.basename p ".zip") pre ∧ p ∉ post.
Proof.
  intros Ho. pose proof (orderly_NoDup _ _ Ho) as Hnd.
  rewrite fmap_app, fmap_cons in Hnd. apply NoDup_app in Hnd as (_ & Hd & Hnd).
  apply NoDup_cons in Hnd as [Hp _]. split.
  - apply Forall_forall. intros q Hq E. apply (Hd (Path.basename q ".zip")).
    + by apply (list_elem_of_fmap_2 (λ q, Path.basename q ".zip")).
    + rewrite E. apply list_elem_of_here.
  - intros Hin. apply Hp. by apply (list_elem_of_fmap_2 (λ q, Path.basename q ".zip")).
Qed.

End orderly_runs.

(** ** The claims *)




(** C2, as the code has it.  Where [bestzip] runs the [zip] command, once
    the pass for an archive has resolved the entries of the archive are in
    the order in which the command met the extracted files, which is the
    order in which the file system lists them, however the run goes on and
    ends.  The plugin does not sort them.  The run is an orderly one: it
    starts in a [quiet] world, the service directory is [literal], the
    archive paths are [proper] and [apart], and the archives unzipped up to
    this one lie outside the scratch root and are [sound]. *)
Theorem entries_follow_traversal pf this pre p post w w2 :
  let repackDir := serviceDir this +:+ "/.repack" in
  native_zip pf = true →
  literal (serviceDir this) = true →
  quiet this w →
  Forall (λ q, proper q = true) (pre ++ p :: post) →
  apart (pre ++ p :: post) →
  Forall (λ q, Path.under repackDir q = false) (pre ++ [p]) →
  Forall (sound w) (pre ++ [p]) →
  forEach (pre ++ [p]) (repackOne pf repackDir (new_Date pf 1990 1 1)) (started this w)
    = Resolved tt w2 →
  ∃ es, archive_at (final (repackFunctions pf this (pre ++ p :: post) w)) p = Some es ∧
        in_traversal_order pf (extraction repackDir p) es.
Proof.
  cbv zeta. intros Hnat _ Hq Hpr _ Hu _ Hrun. rewrite repackFunctions_eq.
  pose proof (Forall_proper_named _ Hpr) as Hn.
  destruct (loop_rebuilt_kept pf (serviceDir this) (new_Date pf 1990 1 1)
              (in_traversal_order pf (extraction (serviceDir this +:+ "/.repack") p))
              pre p post (started this w) w2 Hn Hu) as (_ & es & Hes & Hf); [|done|].
  { intros t es0 Hb. apply built_native in Hb as [-> _]; [|done].
    apply zip_entries_in_traversal_order. }
  exists es. split; [|done].
  by destruct (forEach (pre ++ p :: post) _ _) as [[] ?|? ?|? ?].
Qed.

(** On the machine that lists [b] first. *)
Lemma entries_follow_traversal_witness :
  ∃ es, archive_at (final (repackFunctions Scenario.utc_hashed Scenario.this
                             ([] ++ Scenario.a_zip :: []) Scenario.w0))
          Scenario.a_zip = Some es ∧
        in_traversal_order Scenario.utc_hashed (extraction "/svc/.repack" Scenario.a_zip) es.
Proof.
  apply (entries_follow_traversal Scenario.utc_hashed Scenario.this
           [] Scenario.a_zip [] Scenario.w0
           (final (forEach [Scenario.a_zip]
                     (repackOne Scenario.utc_hashed "/svc/.repack"
                        (new_Date Scenario.utc_hashed 1990 1 1))
                     (started Scenario.this Scenario.w0)))).
  - reflexivity.
  - vm_compute. reflexivity.
  - apply (bool_decide_unpack _). by vm_compute.
  - repeat constructor.
  - apply (bool_decide_unpack _). by vm_compute.
  - repeat constructor.
  - apply (bool_decide_unpack _). by vm_compute.
  - vm_compute. reflexivity.
Defined.

(** C2, as stated, fails: on a machine with the [zip] command whose file
    system lists [b] before [a.txt], the archive with the entries
    [b/file.txt] and [a.txt] is rebuilt with [b/file.txt] first. *)
Lemma entries_not_sorted :
  ∃ es, native_zip Scenario.utc_hashed = true ∧
        archive_at (final (repackFunctions Scenario.utc_hashed Scenario.this
                             [Scenario.a_zip] Scenario.w0))
          Scenario.a_zip = Some es ∧
        ze_name <$> es = ["b/file.txt"; "a.txt"] ∧
        ¬ sorted_by_path es.
Proof.
  eexists. split; [reflexivity|].
  split; [vm_compute; reflexivity|]. split; [reflexivity|].
  intros H. apply StronglySorted_inv in H as [_ H].
  apply Forall_inv in H. vm_compute in H. done.
Qed.











(** C7, as the code has it.  A run that resolves ends by asking for the
    recursive removal of the scratch root, through the callback form of
    [fs.rmdir] and with a callback that drops the error.  It does not wait
    for the removal: when the run returns after a pass or more, that removal
    is the one thing outstanding and the scratch root is still on disk.  A
    run that rejects or exits has asked for no removal that is still to
    come, and the scratch root is on disk.  The run is an [orderly] one. *)
Theorem scratch_removal_requested pf this archives w :
  let repackDir := serviceDir this +:+ "/.repack" in
  orderly this archives w →
  match repackFunctions pf this archives w with
  | Resolved _ wf =>
      last (pending wf) = Some repackDir ∧
      (archives ≠ [] → pending wf = [repackDir] ∧ is_Some (fs wf !! repackDir))
  | Rejected _ wf | Exited _ wf =>
      pending wf = [] ∧ is_Some (fs wf !! repackDir)
  end.
Proof.
  cbv zeta. intros _. rewrite repackFunctions_eq.
  pose proof (loop_state pf (new_Date pf 1990 1 1) (serviceDir this +:+ "/.repack")
                archives (started this w)) as (_ & _ & Hp).
  assert (Hd : serviceDir this +:+ "/.repack" ≠ "").
  { intros H. apply (f_equal String.length) in H.
    rewrite app_length_s in H. simpl in H. lia. }
  pose proof (loop_scratch pf (new_Date pf 1990 1 1) (serviceDir this +:+ "/.repack")
                archives (started this w) Hd) as Hs.
  destruct (forEach archives _ _) as [[] w1|e w1|c w1] eqn:Hloop; cbn [final] in Hp, Hs.
  - cbn [pending set_pending fs]. split; [apply last_snoc|].
    intros Hne. destruct archives; [done|]. rewrite Hp. split; [done|by apply Hs].
  - destruct archives; [done|]. split; [exact Hp|by apply Hs].
  - destruct archives; [done|]. split; [exact Hp|by apply Hs].
Qed.

(** The two function archives of [Scenario]: the run resolves, the removal
    is outstanding and the scratch root is on disk. *)
Lemma scratch_removal_requested_witness :
  ∃ wf,
    repackFunctions Scenario.utc Scenario.this [Scenario.a_zip; Scenario.c_zip] Scenario.w0
    = Resolved tt wf ∧
    pending wf = ["/svc/.repack"] ∧
    is_Some (fs wf !! "/svc/.repack").
Proof.
  assert (H1 : orderly Scenario.this [Scenario.a_zip; Scenario.c_zip] Scenario.w0).
  { apply (bool_decide_unpack _). by vm_compute. }
  pose proof (scratch_removal_requested Scenario.utc Scenario.this
                [Scenario.a_zip; Scenario.c_zip] Scenario.w0 H1) as H.
  cbv zeta in H.
  destruct (repackFunctions Scenario.utc Scenario.this
              [Scenario.a_zip; Scenario.c_zip] Scenario.w0) as [[] wf|e wf|c wf] eqn:E.
  - exists wf. split; [reflexivity|]. apply H. discriminate.
  - vm_compute in E. discriminate.
  - vm_compute in E. discriminate.
Defined.

(** C7, as stated, fails: when the second of three archives cannot be
    unzipped the run rejects, the scratch root is still there with what the
    first pass left in it, and no removal has been asked for that would take
    it away. *)
Lemma scratch_left_behind :
  ∃ wf,
    repackFunctions Scenario.utc Scenario.this
      [Scenario.a_zip; Scenario.bad_zip; Scenario.c_zip] Scenario.w0
    = Rejected ExtractionError wf ∧
    is_Some (fs wf !! "/svc/.repack") ∧
    is_Some (fs wf !! "/svc/.repack/a/a.txt") ∧
    pending wf = [].
Proof.
  eexists. split; [vm_compute; reflexivity|].
  repeat split; try (vm_compute; eauto).
Qed.

(** C8, as the code has it.  No call hands the union to [repackFunctions]:
    the first hook repacks the explicit archives, in the order of the
    function names, and the second hook repacks the archives the glob finds
    that are not among them, in the order of the glob.  Taken together, in
    the order of the hooks, they repack what the locator's contract lists: a
    path is repacked exactly when it is explicit or found, and no path is
    repacked twice. *)
Theorem archives_located this found :
  let explicit := getFunctionArchives this in
  NoDup (getAllFunctions this) →
  NoDup found →
  repacked this found = ArchiveLocator explicit found ∧
  (∀ p, p ∈ repacked this found ↔ p ∈ explicit ∨ p ∈ found) ∧
  (∀ p, p ∈ otherZips this found → p ∈ found ∧ p ∉ explicit) ∧
  NoDup (repacked this found) ∧
  explicit `prefix_of` repacked this found ∧
  otherZips this found `sublist_of` found.
Proof.
  cbv zeta. intros Hn Hf. unfold repacked, ArchiveLocator, otherZips.
  split; [done|]. split; [|split; [|split; [|split]]].
  - intros p. rewrite elem_of_app, list_elem_of_filter.
    destruct (decide (p ∈ getFunctionArchives this)); tauto.
  - intros p. rewrite list_elem_of_filter. tauto.
  - apply NoDup_app. split; [by apply getFunctionArchives_NoDup|]. split.
    + intros p Hp. rewrite list_elem_of_filter. tauto.
    + by apply NoDup_filter.
  - by eexists.
  - apply sublist_filter.
Qed.

(** The two function archives and the one the glob adds. *)
Lemma archives_located_witness :
  repacked Scenario.this Scenario.found
  = [Scenario.a_zip; Scenario.c_zip; "/svc/.serverless/custom-resources.zip"].
Proof.
  destruct (archives_located Scenario.this Scenario.found) as [-> _].
  - apply (bool_decide_unpack _). by vm_compute.
  - apply (bool_decide_unpack _). by vm_compute.
  - vm_compute. reflexivity.
Defined.

(** C8, as stated, fails: what [repackAnyOtherZips] locates and hands on is
    not the union.  Of the three archives the glob finds it keeps the one
    that is not a function archive, and the function archives are not in its
    list. *)
Lemma other_zips_leave_out_explicit :
  getFunctionArchives Scenario.this = [Scenario.a_zip; Scenario.c_zip] ∧
  otherZips Scenario.this Scenario.found = ["/svc/.serverless/custom-resources.zip"] ∧
  otherZips Scenario.this Scenario.found
    ≠ ArchiveLocator (getFunctionArchives Scenario.this) Scenario.found.
Proof. vm_compute. repeat split; discriminate. Qed.

(** C9, as the code has it.  The timestamp step never fails.  It visits every
    path below the extraction directory, directories as well as files, and
    sets the access and the modification time of each to the one value the
    run has made of [new Date(1990, 1, 1)].  Paths elsewhere keep their
    times, and no path comes or goes.  (The directory is [literal], and no
    removal is under way.) *)
Theorem timestamps_reset pf dir w :
  let time := new_Date pf 1990 1 1 in
  literal dir = true →
  pending w = [] →
  ∃ wf,
    resetTimestamps pf dir time w = Resolved tt wf ∧
    (∀ p n, Path.under dir p = true → fs w !! p = Some n →
            fs wf !! p = Some (set_times time n)) ∧
    (∀ p, Path.under dir p = false → fs wf !! p = fs w !! p) ∧
    (∀ p, is_Some (fs wf !! p) ↔ is_Some (fs w !! p)).
Proof.
  cbv zeta. intros _ _. eexists. split; [apply resetTimestamps_eq|].
  cbn [fs set_fs]. repeat split.
  - intros p n Hu Hn. by rewrite lookup_touch_below, Hu, Hn.
  - intros p Hu. by rewrite lookup_touch_below, Hu.
  - rewrite lookup_touch_below. destruct (Path.under dir p); [|done].
    by rewrite fmap_is_Some.
  - rewrite lookup_touch_below. destruct (Path.under dir p); [|done].
    by rewrite fmap_is_Some.
Qed.

(** The tree that the unzip step has made of the archive of [a]. *)
Lemma timestamps_reset_witness :
  let extractDir := "/svc/.repack/a" in
  let time := new_Date Scenario.utc 1990 1 1 in
  let w1 := final (unzipArchive Scenario.a_zip extractDir (started Scenario.this Scenario.w0)) in
  ∃ wf,
    resetTimestamps Scenario.utc extractDir time w1 = Resolved tt wf ∧
    fs wf !! "/svc/.repack/a/a.txt" = Some (NFile (Raw (Scenario.bytes "x")) time time).
Proof.
  cbv zeta.
  destruct (timestamps_reset Scenario.utc "/svc/.repack/a"
              (final (unzipArchive Scenario.a_zip "/svc/.repack/a"
                        (started Scenario.this Scenario.w0))))
    as (wf & H1 & H2 & _).
  - vm_compute. reflexivity.
  - vm_compute. reflexivity.
  - exists wf. split; [exact H1|].
    apply (H2 _ (NFile (Raw (Scenario.bytes "x")) 1700000001000 1700000001000)).
    + vm_compute. reflexivity.
    + vm_compute. reflexivity.
Defined.

(** C9, as stated, fails: the step touches directories.  The directory [b]
    that the unzip step made at the time of the run carries the time of the
    files after it. *)
Lemma timestamps_reset_touches_directories :
  let extractDir := "/svc/.repack/a" in
  let time := new_Date Scenario.utc 1990 1 1 in
  let w1 := final (unzipArchive Scenario.a_zip extractDir (started Scenario.this Scenario.w0)) in
  let w2 := final (resetTimestamps Scenario.utc extractDir time w1) in
  fs w1 !! "/svc/.repack/a/b" = Some (NDir 1700000001000 1700000001000) ∧
  fs w2 !! "/svc/.repack/a/b" = Some (NDir time time) ∧
  fs w2 !! "/svc/.repack/a/b/file.txt" = Some (NFile (Raw (Scenario.bytes "hello")) time time).
Proof. vm_compute. done. Qed.


(** ** More on paths *)
Section more_paths.
Implicit Types s t r p x d f g : string.

Lemma strip_suffix_unfold x s :
  Path.strip_suffix x s =
  if decide (s = x) then Some ""
  else match s with
       | "" => None
       | String c s' => String c <$> Path.strip_suffix x s'
       end.
Proof. by destruct s. Qed.

Lemma strip_suffix_app x r : Path.strip_suffix x (r +:+ x) = Some r.
Proof.
  induction r as [|c r IH]; rewrite strip_suffix_unfold.
  - by rewrite app_nil_l, decide_True.
  - rewrite app_cons, decide_False.
    + by rewrite IH.
    + intros H. apply (f_equal String.length) in H.
      simpl in H. rewrite app_length_s in H. lia.
Qed.

Lemma strip_suffix_is_Some x s :
  is_Some (Path.strip_suffix x s) ↔ ∃ r, s = r +:+ x.
Proof.
  split.
  - intros [r Hr]. exists r. by apply strip_suffix_Some.
  - intros [r ->]. rewrite strip_suffix_app. eauto.
Qed.

(** Appending a name to a path appends it to the last component. *)
Lemma split_snoc_no_slash s x :
  Path.no_slash x = true →
  ∃ l c, Path.split s = l ++ [c] ∧ Path.split (s +:+ x) = l ++ [c +:+ x].
Proof.
  intros Hx. induction s as [|a s (l & c & E1 & E2)].
  - exists [], "". by rewrite app_nil_l, (split_no_slash x).
  - rewrite app_cons. simpl. rewrite E1, E2.
    destruct (Ascii.eqb a Path.slash).
    + by exists ("" :: l), c.
    + destruct l as [|y l]; simpl.
      * by exists [], (String a c).
      * by exists (String a y :: l), c.
Qed.

Lemma neq_app_l s x : s ≠ "" → s +:+ x ≠ x.
Proof.
  intros Hs H. apply (f_equal String.length) in H. rewrite app_length_s in H.
  destruct s; [done|]. simpl in H. lia.
Qed.

Lemma app_neq_nil_r s x : x ≠ "" → s +:+ x ≠ "".
Proof.
  intros Hx H. apply (f_equal String.length) in H. rewrite app_length_s in H.
  destruct x; [done|]. simpl in H. lia.
Qed.

(** [path.basename(p, ".zip")] of a path that ends in [.zip]: the last
    component without the extension, or the extension when that is the whole
    component. *)
Lemma basename_zip s :
  s ≠ "" →
  Path.basename (s +:+ ".zip") ".zip" =
  let c := List.last (Path.split s) "" in
  if decide (c = "") then ".zip" else c.
Proof.
  intros Hs. cbv zeta. unfold Path.basename.
  destruct (split_snoc_no_slash s ".zip") as (l & c & E1 & E2); [done|].
  rewrite E1, E2, drop_trailing_empty_snoc by by apply app_neq_nil_r.
  rewrite !List.last_last, strip_suffix_app.
  destruct c as [|a c]; [|done].
  rewrite decide_False by by apply neq_app_l. done.
Qed.

(** A path that ends in [.zip], and is more than that, has a base name. *)
Lemma named_zip s : s ≠ "" → named (s +:+ ".zip").
Proof.
  intros Hs. unfold named. rewrite basename_zip by done. cbv zeta.
  by case_decide.
Qed.

Lemma last_split_child d n :
  List.last (Path.split (d +:+ "/" +:+ n)) "" = List.last (Path.split n) "".
Proof.
  rewrite split_app. pose proof (split_nonempty n) as Hn.
  destruct (Path.split n) as [|y l] using rev_ind; [done|].
  by rewrite app_assoc, !List.last_last.
Qed.

Lemma no_slash_sep s t : Path.no_slash (s +:+ "/" +:+ t) = false.
Proof.
  induction s as [|c s IH]; [done|]. rewrite app_cons. simpl.
  by rewrite IH, andb_false_r.
Qed.

(** Two paths that agree up to their first slash have the same first
    component. *)
Lemma first_component f g x y :
  Path.no_slash f = true → Path.no_slash g = true →
  f +:+ "/" +:+ x = g +:+ "/" +:+ y → f = g.
Proof.
  revert g. induction f as [|a f IH]; intros [|b g] Hf Hg H.
  - done.
  - rewrite app_nil_l, app_cons in H. injection H as <- _. done.
  - rewrite app_nil_l, app_cons in H. injection H as -> _. done.
  - rewrite !app_cons in H. injection H as -> H.
    simpl in Hf, Hg. apply andb_true_iff in Hf as [_ Hf], Hg as [_ Hg].
    f_equal. by apply IH.
Qed.

Lemma join_app (l1 l2 : list string) :
  l1 ≠ [] → l2 ≠ [] → Path.join (l1 ++ l2) = Path.join l1 +:+ "/" +:+ Path.join l2.
Proof.
  intros H1 H2. induction l1 as [|c l1 IH]; [done|].
  destruct l1 as [|c' l1].
  - simpl. by destruct l2.
  - change (Path.join ((c :: c' :: l1) ++ l2))
      with (c +:+ "/" +:+ Path.join ((c' :: l1) ++ l2)).
    rewrite IH by done.
    change (Path.join (c :: c' :: l1)) with (c +:+ "/" +:+ Path.join (c' :: l1)).
    by rewrite !app_assoc_s.
Qed.

(** A directory above a path is a prefix of it that ends before a slash. *)
Lemma ancestors_prefix a p : a ∈ Path.ancestors p → ∃ r, p = a +:+ "/" +:+ r.
Proof.
  unfold Path.ancestors. intros [_ H]%list_elem_of_filter.
  apply list_elem_of_fmap in H as (n & -> & Hn). apply elem_of_seq in Hn.
  exists (Path.join (drop n (Path.split p))).
  rewrite <-join_app.
  - by rewrite take_drop, join_split.
  - intros E. apply (f_equal length) in E. rewrite length_take in E. simpl in E. lia.
  - intros E. apply (f_equal length) in E. rewrite length_drop in E. simpl in E. lia.
Qed.

(** The service's archive directory and the scratch root are apart. *)
Lemma serverless_outside_repack sd x :
  Path.under (sd +:+ "/.repack") (sd +:+ "/.serverless" +:+ x) = false.
Proof.
  apply not_true_iff_false. rewrite under_true. intros (r & H & _).
  rewrite app_assoc_s in H. apply String.app_inj in H. done.
Qed.

Lemma serverless_not_repack sd x : sd +:+ "/.serverless" +:+ x ≠ sd +:+ "/.repack".
Proof. intros H. apply String.app_inj in H. done. Qed.

End more_paths.

(** ** The archives the hooks hand on *)
Section handed_on.
Context (pf : Platform) (this : Plugin).
Implicit Types p n : string.
Implicit Types t : FS.

Local Abbreviation dotServerlessDir := (serviceDir this +:+ "/.serverless").
Local Abbreviation R := (serviceDir this +:+ "/.repack").

Lemma getFunctionArchives_eq :
  getFunctionArchives this =
  if isIndividialPackaging this
  then (λ name, dotServerlessDir +:+ "/" +:+ name +:+ ".zip") <$> functionNames this
  else [dotServerlessDir +:+ "/" +:+ service_name this +:+ ".zip"].
Proof. reflexivity. Qed.

Lemma function_archive_shape p :
  p ∈ getFunctionArchives this → ∃ n, p = dotServerlessDir +:+ "/" +:+ n +:+ ".zip".
Proof.
  rewrite getFunctionArchives_eq. destruct (isIndividialPackaging this).
  - intros (n & -> & _)%list_elem_of_fmap. eauto.
  - intros ->%list_elem_of_singleton. eauto.
Qed.

(** A path directly or further below the archive directory that ends in
    [.zip] has a base name and lies outside the scratch root. *)
Lemma serverless_zip_named x : named (dotServerlessDir +:+ "/" +:+ x +:+ ".zip").
Proof.
  replace (dotServerlessDir +:+ "/" +:+ x +:+ ".zip")
    with ((dotServerlessDir +:+ "/" +:+ x) +:+ ".zip") by by rewrite !app_assoc_s.
  apply named_zip. rewrite app_assoc_s. by apply app_neq_nil_r, app_neq_nil_r.
Qed.

Lemma under_serverless_outside p :
  Path.under dotServerlessDir p = true → Path.under R p = false ∧ p ≠ R.
Proof.
  intros (r & -> & _)%under_true. rewrite app_assoc_s.
  split; [apply serverless_outside_repack|apply serverless_not_repack].
Qed.

Lemma function_archive_under p :
  p ∈ getFunctionArchives this → Path.under dotServerlessDir p = true.
Proof.
  intros [n ->]%function_archive_shape. apply under_child.
  by apply app_neq_nil_r.
Qed.

Lemma function_archive_named p : p ∈ getFunctionArchives this → named p.
Proof. intros [n ->]%function_archive_shape. apply serverless_zip_named. Qed.

Lemma function_archives_named : Forall named (getFunctionArchives this).
Proof. apply Forall_forall. intros p. apply function_archive_named. Qed.

Lemma function_archives_outside :
  Forall (λ p, Path.under R p = false) (getFunctionArchives this).
Proof.
  apply Forall_forall. intros p Hp.
  by apply under_serverless_outside, function_archive_under.
Qed.

Lemma NoDup_glob_all dir t : NoDup (glob_all pf dir t).
Proof.
  unfold glob_all, traverse. rewrite merge_sort_Permutation.
  apply NoDup_fst_map_to_list.
Qed.

Lemma elem_of_glob_zip dir t p :
  p ∈ glob_zip pf dir t ↔
  Path.under dir p = true ∧ is_Some (t !! p) ∧ is_Some (Path.strip_suffix ".zip" p).
Proof.
  unfold glob_zip. rewrite list_elem_of_In, filter_In, <-list_elem_of_In.
  rewrite elem_of_glob_all, bool_decide_eq_true. tauto.
Qed.

Lemma NoDup_glob_zip dir t : NoDup (glob_zip pf dir t).
Proof.
  unfold glob_zip. pose proof (NoDup_glob_all dir t) as H.
  induction H as [|p l Hp Hl IH]; simpl; [constructor|].
  destruct (bool_decide _); [|done].
  constructor; [|done]. rewrite list_elem_of_In, filter_In, <-list_elem_of_In. tauto.
Qed.

Lemma elem_of_otherZips t p :
  p ∈ otherZips this (glob_zip pf dotServerlessDir t) ↔
  Path.under dotServerlessDir p = true ∧ is_Some (t !! p) ∧
  is_Some (Path.strip_suffix ".zip" p) ∧ p ∉ getFunctionArchives this.
Proof. unfold otherZips. rewrite list_elem_of_filter, elem_of_glob_zip. tauto. Qed.

Lemma otherZips_named t :
  Forall named (otherZips this (glob_zip pf dotServerlessDir t)).
Proof.
  apply Forall_forall. intros p (Hu & _ & Hz & _)%elem_of_otherZips.
  apply strip_suffix_is_Some in Hz as [s ->]. apply named_zip.
  intros ->. apply under_true in Hu as (r & Hr & _).
  apply (f_equal String.length) in Hr. rewrite !app_length_s in Hr. simpl in Hr. lia.
Qed.

Lemma otherZips_outside t :
  Forall (λ p, Path.under R p = false) (otherZips this (glob_zip pf dotServerlessDir t)).
Proof.
  apply Forall_forall. intros p (Hu & _)%elem_of_otherZips.
  by apply under_serverless_outside.
Qed.

End handed_on.

(** ** How a run can end, and what it leaves alone *)
Section outcomes.
Context (pf : Platform) (this : Plugin).
Implicit Types w : World.
Implicit Types p q : string.

Local Abbreviation R := (serviceDir this +:+ "/.repack").
Local Abbreviation time := (new_Date pf 1990 1 1).

(** One pass prints nothing unless the archiver fails; then it prints the
    error and exits with status 1.  The archiver's error is never rethrown. *)
Lemma repackOne_outcome d t p w :
  match repackOne pf d t p w with
  | Resolved _ w' => log w' = log w
  | Rejected e w' => e ≠ CompressionError ∧ log w' = log w
  | Exited c w' => c = 1 ∧ log w' = log w ++ ["error"]
  end.
Proof.
  destruct w as [e tr c l pd].
  unfold repackOne, unzipArchive, repackZip, copyRepacked.
  unfold mbind, M_bind, bind, await, extract.
  cbn [settle set_fs set_pending fs env clock log pending].
  destruct (_ !! p) as [[[b|es] a m|a m]|]; try done.
  rewrite resetTimestamps_eq.
  unfold catch, zip, console_error, process_exit, copyFileSync.
  unfold settle, set_fs, set_pending, set_log.
  cbn [cwd destination fs env clock log pending foldl].
  destruct (zip_fault pf _); [done|].
  destruct (built pf e _ _); [|done].
  cbn [fs clock env log pending].
  repeat case_match; simplify_eq; done.
Qed.

Lemma loop_outcome d t zips w :
  match forEach zips (repackOne pf d t) w with
  | Resolved _ w' => log w' = log w
  | Rejected e w' => e ≠ CompressionError ∧ log w' = log w
  | Exited c w' => c = 1 ∧ log w' = log w ++ ["error"]
  end.
Proof.
  revert w. induction zips as [|p zips IH]; intros w; [done|].
  cbn [forEach]. unfold mbind, M_bind, bind.
  pose proof (repackOne_outcome d t p w) as H1.
  destruct (repackOne pf d t p w) as [[] w1|e w1|c w1]; [|done..].
  specialize (IH w1). rewrite <-H1.
  by destruct (forEach zips _ w1) as [[] ?|? ?|? ?].
Qed.

Lemma kept_lookup (t1 t2 t' : FS) q : t1 !! q = t2 !! q → kept t2 t' q → kept t1 t' q.
Proof. unfold kept. by intros ->. Qed.

Lemma kept_lookup_r (t t1 t2 : FS) q : t1 !! q = t2 !! q → kept t t2 q → kept t t1 q.
Proof. unfold kept. by intros ->. Qed.

Lemma fs_final_repackFunctions archives w :
  fs (final (repackFunctions pf this archives w))
  = fs (final (forEach archives (repackOne pf R time) (started this w))).
Proof.
  rewrite repackFunctions_eq.
  by destruct (forEach archives _ _) as [[] ?|? ?|? ?].
Qed.

Lemma pending_final_repackFunctions (P : string → Prop) archives w :
  Forall P (pending w) → P R →
  Forall P (pending (final (repackFunctions pf this archives w))).
Proof.
  intros HP HR. rewrite repackFunctions_eq.
  pose proof (loop_state pf time R archives (started this w)) as (_ & _ & Hp).
  destruct (forEach archives _ _) as [[] w1|e w1|c w1];
    cbn [final pending set_pending] in *; rewrite Hp;
    destruct archives; cbn [started pending];
    rewrite ?Forall_app, ?Forall_cons, ?Forall_nil; tauto.
Qed.

Lemma pending_resolved archives w wf :
  archives ≠ [] →
  repackFunctions pf this archives w = Resolved tt wf → pending wf = [R].
Proof.
  intros Hne. rewrite repackFunctions_eq.
  pose proof (loop_state pf time R archives (started this w)) as (_ & _ & Hp).
  destruct (forEach archives _ _) as [[] w1|e w1|c w1]; [|done..].
  intros [= <-]. cbn [final pending set_pending] in *. rewrite Hp.
  by destruct archives.
Qed.

(** A run leaves alone every path that is not in the batch and is neither
    the scratch root nor below it. *)
Lemma repackFunctions_kept archives w q :
  Forall named archives →
  q ∉ archives → q ≠ R → Path.under R q = false →
  Forall (λ d, q ≠ d ∧ Path.under d q = false) (pending w) →
  kept (fs w) (fs (final (repackFunctions pf this archives w))) q.
Proof.
  intros Hn Hnin Hne Hu Hpd. rewrite fs_final_repackFunctions.
  assert (H0 : kept (fs w) (fs (started this w)) q) by apply kept_mkdir_parent.
  destruct archives as [|p0 zips]; [done|].
  pose proof (loop_kept pf (serviceDir this) time _ (started this w) q Hn Hu Hnin) as Hk.
  pose proof (loop_state pf time R (p0 :: zips) (started this w)) as (_ & _ & Hp).
  rewrite (settle_idle (final _)) in Hk by done.
  eapply kept_trans; [exact H0|]. eapply kept_lookup; [|exact Hk].
  rewrite settle_fs. rewrite decide_True; [done|].
  cbn [started pending]. apply Forall_app. split; [done|]. by repeat constructor.
Qed.

(** Nor does carrying out the removals that are outstanding after the run
    change such a path. *)
Lemma repackFunctions_kept_settled archives w q :
  Forall named archives →
  q ∉ archives → q ≠ R → Path.under R q = false →
  Forall (λ d, q ≠ d ∧ Path.under d q = false) (pending w) →
  kept (fs w) (fs (settle (final (repackFunctions pf this archives w)))) q.
Proof.
  intros Hn Hnin Hne Hu Hpd.
  eapply kept_lookup_r; [|by apply repackFunctions_kept].
  rewrite settle_fs, decide_True; [done|].
  by apply pending_final_repackFunctions.
Qed.

(** After a run that resolved, every archive of the batch is an output of
    the [zip] command: it is not empty, holds no directory entry, and lists
    its entries in the order of the traversal. *)
Lemma repackFunctions_rebuilt archives w wf :
  native_zip pf = true →
  Forall named archives →
  Forall (λ p, Path.under R p = false) archives →
  repackFunctions pf this archives w = Resolved tt wf →
  ∀ p, p ∈ archives →
    ∃ es, fs wf !! p = Some (NFile (Zip es) (clock w) (clock w)) ∧
          es ≠ [] ∧ files_only es ∧ in_traversal_order pf (extraction R p) es.
Proof.
  intros Hnat Hn Hu Hrun p Hp. rewrite repackFunctions_eq in Hrun.
  destruct (forEach archives _ _) as [[] w1|e w1|c w1] eqn:Hloop; [|done..].
  injection Hrun as <-.
  destruct (loop_rebuilt pf (serviceDir this) time _ _ _ Hn Hu Hloop p Hp)
    as (t & es & Hb & Ht).
  apply built_native in Hb as [-> Hne]; [|done].
  eexists. split; [exact Ht|]. split; [done|]. split.
  - apply zip_entries_files_only, started_zipopt.
  - apply zip_entries_in_traversal_order.
Qed.

End outcomes.

(** ** What is in a rebuilt archive *)
Section contents.
Context (pf : Platform).
Implicit Types t : FS.
Implicit Types k p dir : string.
Implicit Types es : list Entry.

Lemma NoDup_omap {A B} (f : A → option B) (g : B → A) (l : list A) :
  (∀ x y, f x = Some y → g y = x) → NoDup l → NoDup (omap f l).
Proof.
  intros Hg. induction 1 as [|x l Hx Hl IH]; simpl; [constructor|].
  destruct (f x) as [y|] eqn:E; [|done].
  constructor; [|done].
  intros (x' & Hx' & E')%list_elem_of_omap.
  apply Hx. by rewrite <-(Hg _ _ E), (Hg _ _ E').
Qed.

Lemma NoDup_zip_entries e dir t : NoDup (zip_entries pf e dir t).
Proof.
  unfold zip_entries.
  apply (NoDup_omap _ (λ x, dir +:+ "/" +:+ ze_name x)).
  - intros p x. apply entry_of_path.
  - apply NoDup_glob_all.
Qed.

Lemma elem_of_restamped time es e :
  e ∈ restamped time es ↔
  ∃ e0, e0 ∈ es ∧ ze_dir e0 = false ∧ ze_name e0 ≠ "" ∧
        e = mkEntry (ze_name e0) false (ze_data e0) time.
Proof.
  unfold restamped. rewrite list_elem_of_fmap.
  split.
  - intros (e0 & -> & (H1 & H2)%list_elem_of_filter). destruct H1. eauto 6.
  - intros (e0 & H1 & H2 & H3 & ->). exists e0. split; [done|].
    by apply list_elem_of_filter.
Qed.

Lemma restamped_names time es :
  ze_name <$> restamped time es `sublist_of` ze_name <$> es.
Proof.
  unfold restamped. rewrite <-list_fmap_compose.
  change (ze_name ∘ _) with (@ze_name Content).
  apply fmap_sublist, sublist_filter.
Qed.

Lemma NoDup_restamped time es : NoDup (ze_name <$> es) → NoDup (restamped time es).
Proof.
  intros H. apply (NoDup_fmap_1 ze_name).
  eapply sublist_NoDup; [exact H|apply restamped_names].
Qed.

(** The entries the archiver makes of the tree that was unzipped from [es]
    into a vacant directory and touched. *)
Lemma elem_of_zip_staged e_env time now dir es t e :
  zip_no_dir_entries e_env = true →
  NoDup (ze_name <$> es) →
  vacant dir t →
  e ∈ zip_entries pf e_env dir (touch_below dir time (extracted now dir es t))
  ↔ e ∈ restamped time es.
Proof.
  intros Hd Hnd Hv. unfold zip_entries. rewrite Hd, list_elem_of_omap, elem_of_restamped.
  split.
  - intros (p & (Hu & _)%elem_of_glob_all & He).
    unfold entry_of in He.
    destruct (Path.relative dir p) as [rel|] eqn:Hr; [|done].
    apply relative_Some in Hr as [-> Hrel]. cbn in He.
    rewrite lookup_staged_tree in He by auto.
    destruct (file_data dir es _) as [c|] eqn:Hf.
    + injection He as <-.
      apply file_data_Some in Hf as (e0 & He0 & Hdir & Hk & <-).
      apply String.app_inj, String.app_inj in Hk. subst rel. eauto 6.
    + by case_decide.
  - intros (e0 & He0 & Hdir & Hname & ->).
    exists (dir +:+ "/" +:+ ze_name e0).
    assert (Hu : Path.under dir (dir +:+ "/" +:+ ze_name e0) = true) by by apply under_child.
    assert (Hl : touch_below dir time (extracted now dir es t) !! (dir +:+ "/" +:+ ze_name e0)
                 = Some (NFile (ze_data e0) time time)).
    { rewrite lookup_staged_tree by auto. by rewrite file_data_elem. }
    split.
    + apply elem_of_glob_all. rewrite Hl. eauto.
    + unfold entry_of.
      assert (Path.relative dir (dir +:+ "/" +:+ ze_name e0) = Some (ze_name e0)) as ->
        by by apply relative_Some.
      cbn. by rewrite Hl.
Qed.

Lemma zip_staged_restamped e_env time now dir es t :
  zip_no_dir_entries e_env = true →
  NoDup (ze_name <$> es) →
  vacant dir t →
  zip_entries pf e_env dir (touch_below dir time (extracted now dir es t))
  ≡ₚ restamped time es.
Proof.
  intros Hd Hnd Hv. apply NoDup_Permutation.
  - apply NoDup_zip_entries.
  - by apply NoDup_restamped.
  - intros e. by apply elem_of_zip_staged.
Qed.

End contents.

(** ** Scratch directories of different names *)
Section scratch.
Context (pf : Platform) (sd : string) (time : Z).
Implicit Types w : World.
Implicit Types t : FS.
Implicit Types p q k f g : string.

Local Abbreviation R := (sd +:+ "/.repack").

Lemma no_slash_app_2 f x :
  Path.no_slash f = true → Path.no_slash x = true → Path.no_slash (f +:+ x) = true.
Proof.
  intros Hf Hx. induction f as [|c f IH]; [done|]. rewrite app_cons. simpl in *.
  apply andb_true_iff in Hf as [-> Hf]. simpl. auto.
Qed.

(** What the pass with the scratch name [f] writes is not below the
    scratch directory of another name [g]. *)
Lemma scratch_apart f g k :
  Path.no_slash f = true → Path.no_slash g = true → f ≠ g →
  Path.under (R +:+ "/" +:+ g) k = true →
  k ≠ R +:+ "/" +:+ f ∧
  (∀ z, k ≠ (R +:+ "/" +:+ f) +:+ "/" +:+ z) ∧
  k ≠ R +:+ "/" +:+ f +:+ ".zip.new" ∧
  (∀ r, R +:+ "/" +:+ f ≠ k +:+ "/" +:+ r) ∧
  (∀ z r, (R +:+ "/" +:+ f) +:+ "/" +:+ z ≠ k +:+ "/" +:+ r).
Proof.
  intros Hf Hg Hne (r0 & -> & _)%under_true.
  repeat split; repeat intro;
    match goal with H : _ = _ |- _ =>
      rewrite !app_assoc_s in H; do 3 apply String.app_inj in H
    end.
  - rewrite <-H, no_slash_sep in Hf. done.
  - apply first_component in H; [|done..]. by subst.
  - assert (Path.no_slash (f +:+ ".zip.new") = true) as Hn by by apply no_slash_app_2.
    rewrite <-H, no_slash_sep in Hn. done.
  - rewrite H, no_slash_sep in Hf. done.
  - apply first_component in H; [|done..]. by subst.
Qed.

Lemma mkdir_vacant f g now t :
  Path.no_slash f = true → Path.no_slash g = true → f ≠ g →
  vacant (R +:+ "/" +:+ g) t → vacant (R +:+ "/" +:+ g) (mkdir_p now (R +:+ "/" +:+ f) t).
Proof.
  intros Hf Hg Hne Hv k Hk.
  destruct (scratch_apart f g k Hf Hg Hne Hk) as (H1 & _ & _ & H4 & _).
  unfold mkdir_p. rewrite lookup_mkdir_fold, decide_False; [by apply Hv|].
  intros [[r Hr]%ancestors_prefix|E%list_elem_of_singleton]%elem_of_app; [|done].
  by apply (H4 r).
Qed.

Lemma staged_tree_vacant f g now es t :
  Path.no_slash f = true → Path.no_slash g = true → f ≠ g →
  vacant (R +:+ "/" +:+ g) t →
  vacant (R +:+ "/" +:+ g)
    (touch_below (R +:+ "/" +:+ f) time (extracted now (R +:+ "/" +:+ f) es t)).
Proof.
  intros Hf Hg Hne Hv k Hk.
  destruct (scratch_apart f g k Hf Hg Hne Hk) as (H1 & H2 & _ & H4 & H5).
  rewrite lookup_touch_below.
  assert (extracted now (R +:+ "/" +:+ f) es t !! k = None) as Hx;
    [|rewrite Hx; by case_match].
  unfold extracted. rewrite lookup_extract_entries.
  destruct (file_data _ es k) as [c|] eqn:Hfd.
  { apply file_data_Some in Hfd as (e & _ & _ & -> & _). by destruct (H2 (ze_name e)). }
  rewrite decide_False; [exact (mkdir_vacant f g now t Hf Hg Hne Hv k Hk)|].
  intros (e & Hke & _)%list_elem_of_bind. unfold entry_dirs in Hke.
  assert (k ∈ Path.ancestors ((R +:+ "/" +:+ f) +:+ "/" +:+ ze_name e) → False) as Ha.
  { intros [r Hr]%ancestors_prefix. by apply (H5 (ze_name e) r). }
  destruct (ze_dir e); [|done].
  apply elem_of_app in Hke as [?|E%list_elem_of_singleton]; [done|].
  by destruct (H2 (ze_name e)).
Qed.

(** A pass leaves the scratch directories of other names vacant. *)
Lemma pass_vacant p q w :
  named q → Path.under R q = false →
  Path.basename q ".zip" ≠ Path.basename p ".zip" →
  vacant (extraction R p) (fs (settle w)) →
  vacant (extraction R p) (fs (final (repackOne pf R time q w))).
Proof.
  intros Hq Hu Hne Hv. rewrite repackOne_eq by done.
  pose proof (basename_no_slash q ".zip") as Hf.
  pose proof (basename_no_slash p ".zip") as Hg.
  unfold extraction in *.
  assert (Hm : vacant (R +:+ "/" +:+ Path.basename p ".zip")
                 (mkdir_p (clock w) (R +:+ "/" +:+ Path.basename q ".zip") (fs (settle w))))
    by by apply mkdir_vacant.
  unfold job.
  destruct (fs (settle w) !! q) as [[[b|es] a m|a m]|] eqn:Hl; try exact Hm.
  set (t2 := touch_below _ _ _).
  assert (Ht2 : vacant (R +:+ "/" +:+ Path.basename p ".zip") t2)
    by by apply staged_tree_vacant.
  destruct (zip_fault pf _); [exact Ht2|].
  destruct (built pf _ _ _) as [staged|]; [|exact Ht2].
  assert (Hs : ∀ n, vacant (R +:+ "/" +:+ Path.basename p ".zip") (<[staging R q := n]> t2)).
  { intros n k Hk.
    destruct (scratch_apart _ _ k Hf Hg Hne Hk) as (_ & _ & H3 & _).
    rewrite lookup_insert_ne by (by apply not_eq_sym). by apply Ht2. }
  destruct (<[_ := _]> _ !! q) as [[c' a' m'|a' m']|];
    cbn [job_outcome final fs]; try apply Hs.
  - intros k Hk. unfold copyFile_filled, copyFile_truncated.
    assert (q ≠ k).
    { intros ->. apply under_sub in Hk. congruence. }
    rewrite !lookup_insert_ne by done. by apply Hs.
  - intros k Hk. unfold copyFile_filled, copyFile_truncated.
    assert (q ≠ k).
    { intros ->. apply under_sub in Hk. congruence. }
    rewrite !lookup_insert_ne by done. by apply Hs.
Qed.

Lemma loop_vacant p zips w :
  Forall named zips →
  Forall (λ q, Path.under R q = false) zips →
  Forall (λ q, Path.basename q ".zip" ≠ Path.basename p ".zip") zips →
  vacant (extraction R p) (fs (settle w)) →
  vacant (extraction R p) (fs (settle (final (forEach zips (repackOne pf R time) w)))).
Proof.
  intros Hn. revert w. induction Hn as [|q zips Hq Hn IH]; intros w Hu Hb Hv; [done|].
  inversion_clear Hu as [|?? Hu0 Hu']. inversion_clear Hb as [|?? Hb0 Hb'].
  cbn [forEach]. unfold mbind, M_bind, bind.
  pose proof (repackOne_state pf time R q w) as (_ & _ & Hpd).
  pose proof (pass_vacant p q w Hq Hu0 Hb0 Hv) as H1.
  destruct (repackOne pf R time q w) as [[] w1|e w1|c w1]; cbn [final] in *.
  - apply IH; [done..|]. by rewrite settle_idle.
  - by rewrite settle_idle.
  - by rewrite settle_idle.
Qed.

(** From here on [bestzip] runs the [zip] command. *)
Context (Hnat : native_zip pf = true).

(** The pass for an archive with entries of different names, unzipped into
    a vacant scratch directory: the pass resolves, and the archive holds the
    file entries it held, restamped, in the order of the traversal. *)
Lemma pass_restamps p w es a m :
  named p → Path.under R p = false →
  fs (settle w) !! p = Some (NFile (Zip es) a m) →
  vacant (extraction R p) (fs (settle w)) →
  zip_no_dir_entries (env w) = true →
  NoDup (ze_name <$> es) →
  zip_fault pf (staging R p) = false →
  restamped time es ≠ [] →
  ∃ w2 es',
    repackOne pf R time p w = Resolved tt w2 ∧
    fs w2 !! p = Some (NFile (Zip es') (clock w) (clock w)) ∧
    es' ≡ₚ restamped time es ∧
    in_traversal_order pf (extraction R p) es'.
Proof.
  intros Hn Hu Hp Hv Hd Hnd Hz Hne. rewrite repackOne_eq by done.
  unfold job. rewrite Hp, Hz. fold (extraction R p).
  set (t2 := touch_below _ _ _).
  pose proof (zip_staged_restamped pf (env w) time (clock w) (extraction R p) es
                (fs (settle w)) Hd Hnd Hv) as Hperm.
  fold t2 in Hperm.
  pose proof (zip_entries_in_traversal_order pf (env w) (extraction R p) t2) as Hord.
  rewrite built_native_eq by done.
  destruct (zip_entries pf (env w) (extraction R p) t2) as [|e0 staged] eqn:Hes.
  { by apply Permutation_nil in Hperm. }
  assert (Hstg : staging R p ≠ p).
  { intros E. rewrite <-E, staging_under in Hu. done. }
  assert (Ht2 : t2 !! p = Some (NFile (Zip es) a m)).
  { eapply kept_Some; [apply (kept_staged_tree sd); done|done]. }
  rewrite lookup_insert_ne, Ht2 by done.
  eexists _, (e0 :: staged). split; [reflexivity|]. split; [|done].
  cbn [fs]. unfold copyFile_filled. by rewrite lookup_insert_eq.
Qed.

(** Where the loop stands when it reaches the archive [p], after passes for
    archives of other base names: the archive is the one from before the
    loop, and its scratch directory is still vacant. *)
Lemma loop_reaches pre p w w1 es a m :
  Forall named pre →
  Forall (λ q, Path.under R q = false) pre →
  Path.under R p = false →
  Forall (λ q, Path.basename q ".zip" ≠ Path.basename p ".zip") pre →
  fs (settle w) !! p = Some (NFile (Zip es) a m) →
  vacant (extraction R p) (fs (settle w)) →
  forEach pre (repackOne pf R time) w = Resolved tt w1 →
  fs (settle w1) !! p = Some (NFile (Zip es) a m) ∧
  vacant (extraction R p) (fs (settle w1)) ∧
  env w1 = env w.
Proof.
  intros Hn Hu Hp Hb Hsrc Hv Hpre.
  assert (Hnin : p ∉ pre).
  { intros Hin. rewrite Forall_forall in Hb. by apply (Hb p Hin). }
  pose proof (loop_state pf time R pre w) as (He & _ & _).
  pose proof (loop_kept pf sd time pre w p Hn Hp Hnin) as Hk.
  pose proof (loop_vacant p pre w Hn Hu Hb Hv) as Hv1.
  rewrite Hpre in He, Hk, Hv1. cbn [final] in He, Hk, Hv1.
  split; [by eapply kept_Some|done].
Qed.

(** What the pass for [p] left at [p] is there when the loop ends, however
    it ends, when [p] does not come again. *)
Lemma loop_after p post w2 n :
  Forall named post → Path.under R p = false → p ∉ post →
  pending w2 = [] →
  fs w2 !! p = Some n →
  fs (final (forEach post (repackOne pf R time) w2)) !! p = Some n.
Proof.
  intros Hn Hu Hnin Hpd Hw2.
  pose proof (loop_kept pf sd time post w2 p Hn Hu Hnin) as Hk.
  pose proof (loop_state pf time R post w2) as (_ & _ & Hpd3).
  rewrite (settle_idle w2) in Hk by done.
  rewrite (settle_idle (final _)) in Hk by (rewrite Hpd3; by destruct post).
  by eapply kept_Some.
Qed.

Lemma forEach_snoc_cons pre p post w w1 w2 :
  forEach pre (repackOne pf R time) w = Resolved tt w1 →
  repackOne pf R time p w1 = Resolved tt w2 →
  forEach (pre ++ p :: post) (repackOne pf R time) w
  = forEach post (repackOne pf R time) w2.
Proof.
  intros H1 H2. rewrite forEach_app, H1. cbn [forEach]. unfold mbind, M_bind, bind.
  by rewrite H2.
Qed.

(** The same in a batch: the passes before that of [p] have resolved and
    were for archives of other base names; what comes after [p] is not [p]. *)
Lemma loop_restamps pre p post w w1 es a m :
  Forall named (pre ++ p :: post) →
  Forall (λ q, Path.under R q = false) (pre ++ [p]) →
  Forall (λ q, Path.basename q ".zip" ≠ Path.basename p ".zip") pre →
  p ∉ post →
  zip_no_dir_entries (env w) = true →
  fs (settle w) !! p = Some (NFile (Zip es) a m) →
  vacant (extraction R p) (fs (settle w)) →
  NoDup (ze_name <$> es) →
  forEach pre (repackOne pf R time) w = Resolved tt w1 →
  zip_fault pf (staging R p) = false →
  restamped time es ≠ [] →
  ∃ w2 es',
    repackOne pf R time p w1 = Resolved tt w2 ∧
    es' ≡ₚ restamped time es ∧
    in_traversal_order pf (extraction R p) es' ∧
    archive_at (final (forEach (pre ++ p :: post) (repackOne pf R time) w)) p = Some es'.
Proof.
  intros Hn Hu Hb Hpost Hd Hp Hv Hnd Hpre Hz Hne.
  apply Forall_app in Hn as [Hn1 Hn2]. inversion_clear Hn2 as [|?? Hnp Hn3].
  apply Forall_app in Hu as [Hu1 Hu2]. apply Forall_inv in Hu2.
  destruct (loop_reaches pre p w w1 es a m) as (Hsrc & Hv1 & He); [done..|].
  destruct (pass_restamps p w1 es a m) as (w2 & es' & H2 & Hw2 & Hperm & Hord);
    [done|done|done|done|by rewrite He|done..|].
  exists w2, es'. split; [done|]. split; [done|]. split; [done|].
  rewrite (forEach_snoc_cons _ _ _ _ _ _ Hpre H2).
  pose proof (repackOne_state pf time R p w1) as (_ & _ & Hpd2).
  rewrite H2 in Hpd2. cbn [final] in Hpd2.
  unfold archive_at. by rewrite (loop_after p post w2 _ Hn3 Hu2 Hpost Hpd2 Hw2).
Qed.

(** ** Archives that are already repacked *)







#[local] Instance entry_le_trans dir : Transitive (entry_le pf dir).
Proof. intros a b c. unfold entry_le, rank_le. lia. Qed.

#[local] Instance entry_le_total dir : Total (entry_le pf dir).
Proof. intros a b. unfold entry_le, rank_le. lia. Qed.




Lemma archive_at_Some w p es :
  archive_at w p = Some es ↔ ∃ a m, fs w !! p = Some (NFile (Zip es) a m).
Proof.
  unfold archive_at. split.
  - destruct (fs w !! p) as [[[b|es0] a m|a m]|]; try done. intros [= ->]. eauto.
  - by intros (a & m & ->).
Qed.

Lemma NoDup_basenames_cons p zips :
  NoDup ((λ q, Path.basename q ".zip") <$> (p :: zips)) →
  (p ∉ zips) ∧
  Forall (λ q, Path.basename p ".zip" ≠ Path.basename q ".zip") zips ∧
  NoDup ((λ q, Path.basename q ".zip") <$> zips).
Proof.
  rewrite fmap_cons, NoDup_cons. intros [Hp Hnd]. split; [|split; [|done]].
  - intros Hin. apply Hp. by apply (list_elem_of_fmap_2 (λ q, Path.basename q ".zip")).
  - apply Forall_forall. intros q Hq E. apply Hp. rewrite E.
    by apply (list_elem_of_fmap_2 (λ q, Path.basename q ".zip")).
Qed.

(** What one pass does to the other archives of a batch of different base
    names: it leaves them, and their scratch directories, as they were. *)
Lemma pass_others p zips w w1 (P : string → option (list Entry) → Prop) :
  named p → Path.under R p = false →
  Forall named zips →
  Forall (λ q, Path.under R q = false) zips →
  p ∉ zips →
  Forall (λ q, Path.basename p ".zip" ≠ Path.basename q ".zip") zips →
  repackOne pf R time p w = Resolved tt w1 →
  Forall (λ q, vacant (extraction R q) (fs (settle w)) ∧
               is_Some (archive_at (settle w) q) ∧ P q (archive_at (settle w) q)) zips →
  Forall (λ q, vacant (extraction R q) (fs (settle w1)) ∧
               is_Some (archive_at (settle w1) q) ∧ P q (archive_at (settle w1) q) ∧
               archive_at (settle w1) q = archive_at (settle w) q) zips.
Proof.
  intros Hn Hu Hns Hus Hnin Hb H1 Hall.
  pose proof (repackOne_state pf time R p w) as (_ & _ & Hpd).
  rewrite H1 in Hpd. cbn [final] in Hpd. rewrite (settle_idle w1) by done.
  rewrite Forall_forall in Hall, Hus, Hb |- *. intros q Hq.
  destruct (Hall q Hq) as (Hv & [es Hes] & HP).
  assert (Hqp : q ≠ p) by (by intros ->).
  assert (Hk : archive_at w1 q = archive_at (settle w) q).
  { rewrite Hes. apply archive_at_Some in Hes as (a & m & Hl).
    apply archive_at_Some. exists a, m.
    pose proof (job_kept pf sd time p w q (Hus q Hq) (or_introl Hqp)) as Hk.
    rewrite <-repackOne_eq, H1 in Hk by done. by eapply kept_Some. }
  rewrite Hk. split; [|by eauto].
  pose proof (pass_vacant q p w Hn Hu (Hb q Hq) Hv) as Hv1.
  by rewrite H1 in Hv1.
Qed.


(** A batch of readable archives of different base names, each with entries
    of different names and a file among them: the loop resolves and every
    archive holds its file entries, restamped, in the order of the
    traversal. *)
Lemma loop_resolves zips w :
  NoDup ((λ p, Path.basename p ".zip") <$> zips) →
  Forall named zips →
  Forall (λ p, Path.under R p = false) zips →
  zip_no_dir_entries (env w) = true →
  Forall (λ p, zip_fault pf (staging R p) = false) zips →
  Forall (λ p, vacant (extraction R p) (fs (settle w)) ∧
               is_Some (archive_at (settle w) p) ∧
               ∀ es, archive_at (settle w) p = Some es →
                     NoDup (ze_name <$> es) ∧ restamped time es ≠ []) zips →
  ∃ wf, forEach zips (repackOne pf R time) w = Resolved tt wf ∧
        Forall (λ p, ∃ es es',
                  archive_at (settle w) p = Some es ∧
                  archive_at (settle wf) p = Some es' ∧
                  es' ≡ₚ restamped time es ∧
                  in_traversal_order pf (extraction R p) es') zips.
Proof.
  intros Hnd Hn. revert w Hnd.
  induction Hn as [|p zips Hp Hn IH]; intros w Hnd Hu Hd Hz Hall.
  { exists w. by split. }
  apply NoDup_basenames_cons in Hnd as (Hnin & Hb & Hnd).
  apply Forall_cons in Hu as [Hu0 Hu']. apply Forall_cons in Hz as [Hz0 Hz'].
  apply Forall_cons in Hall as [(Hv & [es Hes] & Hc) Hall'].
  destruct (Hc es Hes) as [Hnames Hne].
  pose proof Hes as (a & m & Hl)%archive_at_Some.
  destruct (pass_restamps p w es a m) as (w1 & es' & H1 & Hw1 & Hperm & Hord); [done..|].
  pose proof (repackOne_state pf time R p w) as (He & _ & Hpd).
  rewrite H1 in He, Hpd. cbn [final] in He, Hpd.
  pose proof (pass_others p zips w w1
                (λ q o, ∀ es, o = Some es → NoDup (ze_name <$> es) ∧ restamped time es ≠ [])
                Hp Hu0 Hn Hu' Hnin Hb H1 Hall') as Hrest.
  destruct (IH w1) as (wf & Hrun & Hdone); [done|done|by rewrite He|done| |].
  { eapply Forall_impl; [exact Hrest|]. by intros q (? & ? & ? & _). }
  exists wf. split.
  - cbn [forEach]. unfold mbind, M_bind, bind. by rewrite H1.
  - constructor.
    + exists es, es'. split; [done|]. split; [|done].
      apply archive_at_Some. exists (clock w), (clock w).
      pose proof (loop_kept pf sd time zips w1 p Hn Hu0 Hnin) as Hk.
      rewrite Hrun in Hk. cbn [final] in Hk.
      rewrite (settle_idle w1) in Hk by done. by eapply kept_Some.
    + rewrite Forall_forall in Hdone, Hrest |- *. intros q Hq.
      destruct (Hdone q Hq) as (es0 & es0' & H0 & H0' & ?).
      destruct (Hrest q Hq) as (_ & _ & _ & Heq).
      exists es0, es0'. by rewrite <-Heq.
Qed.


End scratch.

(** ** Runs on archives of different base names *)
Section runs.
Context (pf : Platform) (this : Plugin).
Implicit Types w : World.
Implicit Types p q : string.

Local Abbreviation R := (serviceDir this +:+ "/.repack").
Local Abbreviation time := (new_Date pf 1990 1 1).

Lemma kept_archive_at w w' q : kept (fs w) (fs w') q → archive_at w' q = archive_at w q.
Proof. unfold archive_at. by intros [->|[-> [now ->]]]. Qed.

(** When the loop starts, and the removal of the scratch root has been
    carried out, the scratch directories are vacant and the archives are
    what they were. *)
Lemma started_vacant w p : vacant (extraction R p) (fs (settle (started this w))).
Proof.
  intros k Hk. apply under_sub in Hk. rewrite settle_fs. cbn [started pending fs].
  rewrite decide_False; [done|].
  intros [_ H]%Forall_app. apply Forall_inv in H as [_ H]. congruence.
Qed.

Lemma started_lookup w p :
  p ≠ R → Path.under R p = false →
  Forall (λ d, p ≠ d ∧ Path.under d p = false) (pending w) →
  kept (fs w) (fs (settle (started this w))) p.
Proof.
  intros Hne Hu Hpd. eapply kept_lookup_r; [|apply (kept_mkdir_parent (clock w))].
  rewrite settle_fs. cbn [started pending fs]. rewrite decide_True; [done|].
  apply Forall_app. split; [done|]. by repeat constructor.
Qed.

Lemma started_archive_at w p :
  p ≠ R → Path.under R p = false →
  Forall (λ d, p ≠ d ∧ Path.under d p = false) (pending w) →
  archive_at (settle (started this w)) p = archive_at w p.
Proof. intros. by apply kept_archive_at, started_lookup. Qed.

Lemma archive_at_final_repackFunctions archives w p :
  archive_at (final (repackFunctions pf this archives w)) p
  = archive_at (final (forEach archives (repackOne pf R time) (started this w))) p.
Proof. unfold archive_at. by rewrite fs_final_repackFunctions. Qed.

(** From here on [bestzip] runs the [zip] command. *)
Context (Hnat : native_zip pf = true).



End runs.

(** ** Beyond the claims *)

(** X1.  Whatever the service and the options are, every archive path that
    [getFunctionArchives] returns lies below the [.serverless] directory of
    the service, ends in [.zip], has a base name that a scratch directory can
    be named after, and is neither the scratch root nor below it. *)
Theorem function_archives_well_formed this :
  let dotServerlessDir := serviceDir this +:+ "/.serverless" in
  let repackDir := serviceDir this +:+ "/.repack" in
  Forall (λ p, Path.under dotServerlessDir p = true ∧
               is_Some (Path.strip_suffix ".zip" p) ∧
               named p ∧
               p ≠ repackDir ∧ Path.under repackDir p = false)
    (getFunctionArchives this).
Proof.
  cbv zeta. apply Forall_forall. intros p Hp.
  pose proof (function_archive_under this p Hp) as Hu.
  destruct (under_serverless_outside this p Hu) as [Ho Hne].
  repeat split; [done| |by apply (function_archive_named this)|done..].
  apply function_archive_shape in Hp as [n ->].
  apply strip_suffix_is_Some.
  exists ((serviceDir this +:+ "/.serverless") +:+ "/" +:+ n). by rewrite !app_assoc_s.
Qed.

(** X2.  The name the loop of [repackFunctions] takes from an archive path
    of [getFunctionArchives] is the name the path was made of: with
    individual packaging the names of the functions, in their order, and
    otherwise the name of the service, whatever functions there are and
    whatever function the options name.  So the scratch directory of a
    function is named after the function, and functions of different names
    are unzipped into different directories.  (The names are not empty and
    hold no slash.) *)
Theorem function_archive_basename this :
  let names :=
    if isIndividialPackaging this then functionNames this else [service_name this] in
  Forall (λ n, n ≠ "" ∧ Path.no_slash n = true) names →
  (λ p, Path.basename p ".zip") <$> getFunctionArchives this = names.
Proof.
  cbv zeta. intros Hn.
  assert (Hb : ∀ n, n ≠ "" → Path.no_slash n = true →
            Path.basename ((serviceDir this +:+ "/.serverless") +:+ "/" +:+ n +:+ ".zip") ".zip"
            = n).
  { intros n Hne Hs.
    replace ((serviceDir this +:+ "/.serverless") +:+ "/" +:+ n +:+ ".zip")
      with (((serviceDir this +:+ "/.serverless") +:+ "/" +:+ n) +:+ ".zip")
      by by rewrite !app_assoc_s.
    rewrite basename_zip.
    - cbv zeta. rewrite last_split_child, split_no_slash by done. simpl.
      by rewrite decide_False.
    - rewrite app_assoc_s. by apply app_neq_nil_r, app_neq_nil_r. }
  rewrite getFunctionArchives_eq. destruct (isIndividialPackaging this).
  - rewrite <-list_fmap_compose.
    rewrite <-(list_fmap_id (functionNames this)) at 2.
    apply Forall_fmap_ext. eapply Forall_impl; [exact Hn|].
    intros n [Hne Hs]. by apply Hb.
  - apply Forall_inv in Hn as [Hne Hs]. simpl. by rewrite Hb.
Qed.

(** On the service with the functions [a] and [c]. *)
Lemma function_archive_basename_witness :
  (λ p, Path.basename p ".zip") <$> getFunctionArchives Scenario.this = ["a"; "c"].
Proof.
  apply (function_archive_basename Scenario.this).
  repeat constructor; discriminate.
Defined.

(** X3.  What [repackAnyOtherZips] hands to [repackFunctions], for a service
    directory that is [literal]: exactly the paths on disk below the
    [.serverless] directory that end in [.zip] and are not function
    archives, each of them once; every one of them has a base name and lies
    outside the scratch root. *)
Theorem other_zips_well_formed pf this t :
  let dotServerlessDir := serviceDir this +:+ "/.serverless" in
  let repackDir := serviceDir this +:+ "/.repack" in
  let zips := otherZips this (glob_zip pf dotServerlessDir t) in
  literal (serviceDir this) = true →
  NoDup zips ∧
  (∀ p, p ∈ zips ↔
        Path.under dotServerlessDir p = true ∧ is_Some (t !! p) ∧
        is_Some (Path.strip_suffix ".zip" p) ∧ p ∉ getFunctionArchives this) ∧
  Forall (λ p, named p ∧ p ≠ repackDir ∧ Path.under repackDir p = false) zips.
Proof.
  cbv zeta. intros _. split; [|split].
  - unfold otherZips. apply NoDup_filter, NoDup_glob_zip.
  - intros p. apply elem_of_otherZips.
  - pose proof (otherZips_named pf this t) as Hn.
    rewrite Forall_forall in Hn |- *. intros p Hp. split; [by apply Hn|].
    apply elem_of_otherZips in Hp as (Hu & _).
    destruct (under_serverless_outside this p Hu). done.
Qed.

(** The archive that another plugin has left beside the function archives. *)
Lemma other_zips_well_formed_witness :
  Deployed.custom_zip
    ∈ otherZips Scenario.this (glob_zip Scenario.utc "/svc/.serverless" Deployed.disk).
Proof.
  destruct (other_zips_well_formed Scenario.utc Scenario.this Deployed.disk)
    as (_ & H & _).
  - vm_compute. reflexivity.
  - apply H. split; [vm_compute; reflexivity|]. split; [vm_compute; eauto|].
    split; [vm_compute; eauto|]. apply (bool_decide_unpack _). by vm_compute.
Defined.

(** X4.  When the hook [repackAllFunctions] resolves in an orderly run, where
    [bestzip] runs the [zip] command, every function archive has been
    rebuilt: it is a zip archive, not empty, without directory entries, its
    entries in the order of the platform's traversal. *)
Theorem function_archives_rebuilt pf this w wf :
  let repackDir := serviceDir this +:+ "/.repack" in
  native_zip pf = true →
  orderly this (getFunctionArchives this) w →
  repackAllFunctions pf this w = Resolved tt wf →
  ∀ p, p ∈ getFunctionArchives this →
    ∃ es, archive_at wf p = Some es ∧
          es ≠ [] ∧ files_only es ∧ in_traversal_order pf (extraction repackDir p) es.
Proof.
  cbv zeta. unfold repackAllFunctions. intros Hnat _ Hrun p Hp.
  destruct (repackFunctions_rebuilt pf this _ w wf Hnat
              (function_archives_named this) (function_archives_outside this) Hrun p Hp)
    as (es & Hes & H).
  exists es. split; [|exact H]. unfold archive_at. by rewrite Hes.
Qed.

(** The archive of [a] after the first hook. *)
Lemma function_archives_rebuilt_witness :
  ∃ es, archive_at (final (repackAllFunctions Scenario.utc Scenario.this Scenario.w0))
          Scenario.a_zip = Some es ∧
        es ≠ [] ∧ files_only es ∧
        in_traversal_order Scenario.utc (extraction "/svc/.repack" Scenario.a_zip) es.
Proof.
  apply (function_archives_rebuilt Scenario.utc Scenario.this Scenario.w0).
  - reflexivity.
  - apply (bool_decide_unpack _). by vm_compute.
  - vm_compute. reflexivity.
  - apply (bool_decide_unpack _). by vm_compute.
Defined.

(** X5.  The hook [repackAnyOtherZips], started in a [quiet] world on a
    [literal] service directory, never touches a function archive, however
    it ends: the node at every path of [getFunctionArchives] is the one that
    was there when the hook started, also once the removal that the hook
    asks for has been carried out.  (The archives the hook finds have
    [proper] paths.) *)
Theorem other_zips_hook_keeps_function_archives pf this w q :
  let dotServerlessDir := serviceDir this +:+ "/.serverless" in
  let wf := final (repackAnyOtherZips pf this w) in
  literal (serviceDir this) = true →
  quiet this w →
  Forall (λ p, proper p = true) (otherZips this (glob_zip pf dotServerlessDir (fs w))) →
  q ∈ getFunctionArchives this →
  kept (fs w) (fs wf) q ∧ kept (fs w) (fs (settle wf)) q.
Proof.
  cbv zeta. intros _ Hqu _ Hq. unfold repackAnyOtherZips.
  pose proof (function_archive_under this q Hq) as Hu.
  destruct (under_serverless_outside this q Hu) as [Ho Hne].
  assert (Hnin : q ∉ otherZips this (glob_zip pf (serviceDir this +:+ "/.serverless") (fs w))).
  { rewrite elem_of_otherZips. tauto. }
  assert (Hpd : Forall (λ d, q ≠ d ∧ Path.under d q = false) (pending w)).
  { rewrite (quiet_pending this w Hqu). constructor. }
  split.
  - apply repackFunctions_kept; [apply otherZips_named|done..].
  - apply repackFunctions_kept_settled; [apply otherZips_named|done..].
Qed.

(** The archive of [a] during the second hook, which repacks the third
    archive. *)
Lemma other_zips_hook_keeps_function_archives_witness :
  kept (fs Deployed.w0)
       (fs (final (repackAnyOtherZips Scenario.utc Scenario.this Deployed.w0)))
       Scenario.a_zip.
Proof.
  destruct (other_zips_hook_keeps_function_archives Scenario.utc Scenario.this
              Deployed.w0 Scenario.a_zip) as [H _].
  - vm_compute. reflexivity.
  - apply (bool_decide_unpack _). by vm_compute.
  - apply (bool_decide_unpack _). by vm_compute.
  - apply (bool_decide_unpack _). by vm_compute.
  - exact H.
Defined.

(** X6.  A run of [repackFunctions] on archives with [proper] paths, started
    in a [quiet] world on a [literal] service directory, leaves every path
    alone that is not in the batch and is neither the scratch root nor below
    it, however the run ends: the path holds what it held, or it was absent
    and is now a directory above the scratch root.  The same holds once the
    removal that the run asks for has been carried out. *)
Theorem repack_leaves_other_paths pf this archives w q :
  let repackDir := serviceDir this +:+ "/.repack" in
  let wf := final (repackFunctions pf this archives w) in
  literal (serviceDir this) = true →
  quiet this w →
  Forall (λ p, proper p = true) archives →
  q ∉ archives → q ≠ repackDir → Path.under repackDir q = false →
  kept (fs w) (fs wf) q ∧ kept (fs w) (fs (settle wf)) q ∧
  (∀ n, fs w !! q = Some n → fs wf !! q = Some n ∧ fs (settle wf) !! q = Some n).
Proof.
  cbv zeta. intros _ Hqu Hpr Hnin Hne Hu.
  pose proof (Forall_proper_named _ Hpr) as Hn.
  assert (Hpd : Forall (λ d, q ≠ d ∧ Path.under d q = false) (pending w)).
  { rewrite (quiet_pending this w Hqu). constructor. }
  pose proof (repackFunctions_kept pf this archives w q Hn Hnin Hne Hu Hpd) as H1.
  pose proof (repackFunctions_kept_settled pf this archives w q Hn Hnin Hne Hu Hpd) as H2.
  split; [done|]. split; [done|].
  intros n Hq. split; by eapply kept_Some.
Qed.

(** The archive of [c] during a run on the archive of [a]. *)
Lemma repack_leaves_other_paths_witness :
  fs (final (repackFunctions Scenario.utc Scenario.this [Scenario.a_zip] Scenario.w0))
    !! Scenario.c_zip
  = Some (NFile (Zip Scenario.c_entries) 2 2).
Proof.
  destruct (repack_leaves_other_paths Scenario.utc Scenario.this [Scenario.a_zip]
              Scenario.w0 Scenario.c_zip) as (_ & _ & H).
  - vm_compute. reflexivity.
  - apply (bool_decide_unpack _). by vm_compute.
  - apply (bool_decide_unpack _). by vm_compute.
  - apply (bool_decide_unpack _). by vm_compute.
  - discriminate.
  - vm_compute. reflexivity.
  - apply (H (NFile (Zip Scenario.c_entries) 2 2)). vm_compute. reflexivity.
Defined.

(** X7.  How a run of [repackFunctions] can end, and what it prints.  It
    prints its one line at the start and nothing more, unless the archiver
    fails: then it prints the error and the process exits, always with
    status 1.  The archiver's error never reaches the caller as a rejection;
    a run that rejects does so with the error of the unzip step or of the
    copy. *)
Theorem run_endings pf this archives w :
  let banner := "Repacking functions for speed..." in
  match repackFunctions pf this archives w with
  | Resolved _ wf => log wf = log w ++ [banner]
  | Rejected e wf =>
      (e = ExtractionError ∨ e = FilesystemError) ∧ log wf = log w ++ [banner]
  | Exited c wf => c = 1 ∧ log wf = log w ++ [banner; "error"]
  end.
Proof.
  cbv zeta. rewrite repackFunctions_eq.
  pose proof (loop_outcome pf (serviceDir this +:+ "/.repack") (new_Date pf 1990 1 1)
                archives (started this w)) as H.
  destruct (forEach archives _ _) as [[] w1|e w1|c w1]; cbn [started log set_pending] in *.
  - done.
  - destruct H as [He ->]. split; [|done]. by destruct e; [left|right|].
  - destruct H as [-> ->]. by rewrite <-app_assoc.
Qed.

(** X8.  What a rebuilt archive holds, in an orderly run where [bestzip]
    runs the [zip] command.  When the passes for the archives before it have
    resolved, the pass for an archive resolves, provided the archiver can
    write and the archive holds a file; from then on, however the run ends,
    the archive holds exactly the file entries it held before the run, each
    with its name and its data and with the fixed time for its own, in the
    order of the platform's traversal.  Directory entries are gone and
    nothing else is added. *)
Theorem rebuilt_archive_contents pf this pre p post w w1 es a m :
  let repackDir := serviceDir this +:+ "/.repack" in
  let time := new_Date pf 1990 1 1 in
  native_zip pf = true →
  orderly this (pre ++ p :: post) w →
  Forall (λ q, Path.under repackDir q = false) pre →
  fs w !! p = Some (NFile (Zip es) a m) →
  forEach pre (repackOne pf repackDir time) (started this w) = Resolved tt w1 →
  zip_fault pf (staging repackDir p) = false →
  restamped time es ≠ [] →
  ∃ w2 es',
    repackOne pf repackDir time p w1 = Resolved tt w2 ∧
    archive_at (final (repackFunctions pf this (pre ++ p :: post) w)) p = Some es' ∧
    es' ≡ₚ restamped time es ∧
    in_traversal_order pf (extraction repackDir p) es'.
Proof.
  cbv zeta. intros Hnat Ho Hupre Hp Hpre Hz Hre.
  pose proof (orderly_named this _ _ Ho) as Hn.
  destruct (orderly_split this pre p post w Ho) as [Hb Hpost].
  destruct (quiet_outside this w p (orderly_quiet this _ _ Ho)) as [Hne Hup]; [eauto|].
  assert (Hnd : NoDup (ze_name <$> es)).
  { apply coherent_NoDup. eapply (orderly_coherent this _ w p); [exact Ho| |].
    - apply elem_of_app. right. apply list_elem_of_here.
    - unfold archive_at. by rewrite Hp. }
  assert (Hpd : Forall (λ d, p ≠ d ∧ Path.under d p = false) (pending w)).
  { rewrite (orderly_pending this _ _ Ho). constructor. }
  assert (Hu : Forall (λ q, Path.under (serviceDir this +:+ "/.repack") q = false)
                      (pre ++ [p])).
  { apply Forall_app. by repeat constructor. }
  destruct (loop_restamps pf (serviceDir this) (new_Date pf 1990 1 1) Hnat
              pre p post (started this w) w1 es a m)
    as (w2 & es' & H2 & Hperm & Hord & Hat); try done.
  - apply started_zipopt.
  - eapply kept_Some; [by apply started_lookup|done].
  - apply started_vacant.
  - exists w2, es'. by rewrite archive_at_final_repackFunctions.
Qed.

(** The archive of [c], second in a batch of three. *)
Lemma rebuilt_archive_contents_witness :
  ∃ es',
    archive_at (final (repackFunctions Scenario.utc Scenario.this
                         ([Scenario.a_zip] ++ Scenario.c_zip :: [Scenario.bad_zip])
                         Scenario.w0))
      Scenario.c_zip = Some es' ∧
    es' ≡ₚ [mkEntry "index.js" false (Raw (Scenario.bytes "exports")) 633830400000].
Proof.
  destruct (rebuilt_archive_contents Scenario.utc Scenario.this
              [Scenario.a_zip] Scenario.c_zip [Scenario.bad_zip] Scenario.w0
              (final (forEach [Scenario.a_zip]
                        (repackOne Scenario.utc "/svc/.repack" (new_Date Scenario.utc 1990 1 1))
                        (started Scenario.this Scenario.w0)))
              Scenario.c_entries 2 2)
    as (w2 & es' & _ & H1 & H2 & _).
  - reflexivity.
  - apply (bool_decide_unpack _). by vm_compute.
  - repeat constructor.
  - vm_compute. reflexivity.
  - vm_compute. reflexivity.
  - reflexivity.
  - vm_compute. discriminate.
  - exists es'. split; [exact H1|exact H2].
Defined.





(** X11.  When the hook [repackAnyOtherZips] resolves in an orderly run,
    where [bestzip] runs the [zip] command, every path that was on disk
    below the [.serverless] directory, ended in [.zip] and was not a
    function archive has been rebuilt: it is a zip archive, not empty,
    without directory entries, its entries in the order of the platform's
    traversal. *)
Theorem other_zips_rebuilt pf this w wf :
  let dotServerlessDir := serviceDir this +:+ "/.serverless" in
  let repackDir := serviceDir this +:+ "/.repack" in
  native_zip pf = true →
  orderly this (otherZips this (glob_zip pf dotServerlessDir (fs w))) w →
  repackAnyOtherZips pf this w = Resolved tt wf →
  ∀ p, Path.under dotServerlessDir p = true →
       is_Some (fs w !! p) →
       is_Some (Path.strip_suffix ".zip" p) →
       p ∉ getFunctionArchives this →
    ∃ es, archive_at wf p = Some es ∧
          es ≠ [] ∧ files_only es ∧ in_traversal_order pf (extraction repackDir p) es.
Proof.
  cbv zeta. unfold repackAnyOtherZips. intros Hnat _ Hrun p Hu Hp Hz Hnin.
  destruct (repackFunctions_rebuilt pf this _ w wf Hnat
              (otherZips_named pf this (fs w)) (otherZips_outside pf this (fs w)) Hrun p)
    as (es & Hes & H).
  - by apply elem_of_otherZips.
  - exists es. split; [|exact H]. unfold archive_at. by rewrite Hes.
Qed.

(** The third archive after the second hook. *)
Lemma other_zips_rebuilt_witness :
  ∃ es, archive_at (final (repackAnyOtherZips Scenario.utc Scenario.this Deployed.w0))
          Deployed.custom_zip = Some es ∧
        es ≠ [] ∧ files_only es.
Proof.
  destruct (other_zips_rebuilt Scenario.utc Scenario.this Deployed.w0
              (final (repackAnyOtherZips Scenario.utc Scenario.this Deployed.w0)))
    with (p := Deployed.custom_zip) as (es & H1 & H2 & H3 & _).
  - reflexivity.
  - apply (bool_decide_unpack _). by vm_compute.
  - vm_compute. reflexivity.
  - vm_compute. reflexivity.
  - vm_compute. eauto.
  - vm_compute. eauto.
  - apply (bool_decide_unpack _). by vm_compute.
  - exists es. repeat split; assumption.
Defined.

(** X12.  The two hooks, one after the other, where [bestzip] runs the [zip]
    command: the first in an orderly run, the second in an orderly run that
    starts once the removal that the first asked for has been carried out.
    When both resolve, every archive that the locator lists, the function
    archives and what the glob of the second hook finds besides, has been
    rebuilt: it is not empty and holds no directory entry.  No archive is
    rebuilt twice: the second hook leaves every function archive as the
    first hook left it. *)
Theorem both_hooks_rebuild pf this w w1 wf :
  let dotServerlessDir := serviceDir this +:+ "/.serverless" in
  let found := glob_zip pf dotServerlessDir (fs (settle w1)) in
  native_zip pf = true →
  orderly this (getFunctionArchives this) w →
  orderly this (otherZips this found) (settle w1) →
  repackAllFunctions pf this w = Resolved tt w1 →
  repackAnyOtherZips pf this (settle w1) = Resolved tt wf →
  (∀ p, p ∈ getFunctionArchives this → fs wf !! p = fs w1 !! p) ∧
  (∀ p, p ∈ repacked this found →
        ∃ es, archive_at wf p = Some es ∧ es ≠ [] ∧ files_only es).
Proof.
  cbv zeta. intros Hnat _ Ho2 H1 H2.
  assert (Hfun : ∀ p, p ∈ getFunctionArchives this →
            ∃ es, fs w1 !! p = Some (NFile (Zip es) (clock w) (clock w)) ∧
                  es ≠ [] ∧ files_only es ∧ fs wf !! p = fs w1 !! p).
  { intros p Hp.
    destruct (repackFunctions_rebuilt pf this _ w w1 Hnat
                (function_archives_named this) (function_archives_outside this) H1 p Hp)
      as (es & Hes & Hne & Hf & _).
    exists es. split; [done|]. split; [done|]. split; [done|].
    pose proof (function_archive_under this p Hp) as Hu.
    destruct (under_serverless_outside this p Hu) as [Hout Hnr].
    assert (Hpd : pending w1 = [serviceDir this +:+ "/.repack"]).
    { eapply pending_resolved; [|exact H1]. intros E. rewrite E in Hp.
      by apply not_elem_of_nil in Hp. }
    assert (Hs : fs (settle w1) !! p = fs w1 !! p).
    { rewrite settle_fs, decide_True; [done|]. rewrite Hpd. by repeat constructor. }
    unfold repackAnyOtherZips in H2.
    pose proof (repackFunctions_kept pf this
                  (otherZips this (glob_zip pf (serviceDir this +:+ "/.serverless")
                                     (fs (settle w1))))
                  (settle w1) p (otherZips_named pf this (fs (settle w1)))) as Hk.
    rewrite H2 in Hk. cbn [final] in Hk.
    rewrite Hes. eapply kept_Some; [|by rewrite <-Hs, Hs, Hes].
    eapply kept_lookup; [symmetry; exact Hs|]. apply Hk; [|done..|].
    - rewrite elem_of_otherZips. tauto.
    - rewrite (orderly_pending this _ _ Ho2). constructor. }
  split.
  - intros p Hp. by destruct (Hfun p Hp) as (es & _ & _ & _ & ?).
  - intros p [Hp|Hp]%elem_of_app.
    + destruct (Hfun p Hp) as (es & Hes & Hne & Hf & Heq).
      exists es. unfold archive_at. by rewrite Heq, Hes.
    + unfold repackAnyOtherZips in H2.
      destruct (repackFunctions_rebuilt pf this _ (settle w1) wf Hnat
                  (otherZips_named pf this (fs (settle w1)))
                  (otherZips_outside pf this (fs (settle w1))) H2 p Hp)
        as (es & Hes & Hne & Hf & _).
      exists es. unfold archive_at. by rewrite Hes.
Qed.

(** The three archives of the service after both hooks. *)
Lemma both_hooks_rebuild_witness :
  let w1 := final (repackAllFunctions Scenario.utc Scenario.this Deployed.w0) in
  let wf := final (repackAnyOtherZips Scenario.utc Scenario.this (settle w1)) in
  ∃ es, archive_at wf Deployed.custom_zip = Some es ∧ es ≠ [] ∧ files_only es.
Proof.
  cbv zeta.
  destruct (both_hooks_rebuild Scenario.utc Scenario.this Deployed.w0
              (final (repackAllFunctions Scenario.utc Scenario.this Deployed.w0))
              (final (repackAnyOtherZips Scenario.utc Scenario.this
                        (settle (final (repackAllFunctions Scenario.utc Scenario.this
                                          Deployed.w0))))))
    as (_ & H).
  - reflexivity.
  - apply (bool_decide_unpack _). by vm_compute.
  - apply (bool_decide_unpack _). by vm_compute.
  - vm_compute. reflexivity.
  - vm_compute. reflexivity.
  - apply H. apply (bool_decide_unpack _). by vm_compute.
Defined.



(** X14.  An orderly run on a well-formed batch resolves, where [bestzip]
    runs the [zip] command.  When each archive is a readable zip archive
    with a file among its entries, and the archiver can write, the run
    resolves and leaves every archive with exactly its file entries,
    restamped, in the order of the traversal. *)
Theorem well_formed_batch_resolves pf this archives w :
  let repackDir := serviceDir this +:+ "/.repack" in
  let time := new_Date pf 1990 1 1 in
  native_zip pf = true →
  orderly this archives w →
  Forall (λ p, zip_fault pf (staging repackDir p) = false) archives →
  Forall (λ p, ∃ es, archive_at w p = Some es ∧ restamped time es ≠ []) archives →
  ∃ wf, repackFunctions pf this archives w = Resolved tt wf ∧
        Forall (λ p, ∃ es es',
                  archive_at w p = Some es ∧
                  archive_at wf p = Some es' ∧
                  es' ≡ₚ restamped time es ∧
                  in_traversal_order pf (extraction repackDir p) es') archives.
Proof.
  cbv zeta. intros Hnat Ho Hz Hc.
  pose proof (orderly_NoDup this _ _ Ho) as Hnd.
  pose proof (orderly_idle this _ _ Ho) as Hpd.
  assert (Hpath : Forall (λ p, named p ∧ p ≠ serviceDir this +:+ "/.repack" ∧
                               Path.under (serviceDir this +:+ "/.repack") p = false) archives).
  { apply (orderly_paths this _ w Ho).
    eapply Forall_impl; [exact Hc|]. intros p (es & -> & _). eauto. }
  assert (Hst : Forall (λ p, archive_at (settle (started this w)) p = archive_at w p) archives).
  { rewrite Forall_forall in Hpath, Hpd |- *. intros p Hp.
    destruct (Hpath p Hp) as (_ & ? & ?). apply started_archive_at; auto. }
  destruct (loop_resolves pf (serviceDir this) (new_Date pf 1990 1 1) Hnat
              archives (started this w))
    as (w1 & Hloop & Hdone).
  - done.
  - eapply Forall_impl; [exact Hpath|]. by intros p (? & _).
  - eapply Forall_impl; [exact Hpath|]. by intros p (_ & _ & ?).
  - apply started_zipopt.
  - done.
  - rewrite Forall_forall in Hc, Hst |- *. intros p Hp.
    destruct (Hc p Hp) as (es & Hes & Hne). rewrite (Hst p Hp), Hes.
    split; [apply started_vacant|]. split; [eauto|]. intros ? [= <-].
    split; [|done]. apply coherent_NoDup. by eapply (orderly_coherent this _ w p).
  - exists (set_pending (λ l, l ++ [serviceDir this +:+ "/.repack"]) w1). split.
    + by rewrite repackFunctions_eq, Hloop.
    + pose proof (loop_state pf (new_Date pf 1990 1 1) (serviceDir this +:+ "/.repack")
                    archives (started this w)) as (_ & _ & Hp).
      rewrite Hloop in Hp. cbn [final] in Hp.
      rewrite Forall_forall in Hdone, Hst |- *. intros p Hin.
      destruct (Hdone p Hin) as (es & es' & H1 & H2 & H3 & H4).
      exists es, es'. rewrite <-(Hst p Hin). split; [done|]. split; [|done].
      rewrite (settle_idle w1) in H2
        by (destruct archives; [by apply not_elem_of_nil in Hin|done]).
      exact H2.
Qed.

(** The three archives of the service with a third archive. *)
Lemma well_formed_batch_resolves_witness :
  ∃ wf, repackFunctions Scenario.utc Scenario.this
          [Scenario.a_zip; Scenario.c_zip; Deployed.custom_zip] Deployed.w0
        = Resolved tt wf.
Proof.
  destruct (well_formed_batch_resolves Scenario.utc Scenario.this
              [Scenario.a_zip; Scenario.c_zip; Deployed.custom_zip] Deployed.w0)
    as (wf & Hrun & _).
  - reflexivity.
  - apply (bool_decide_unpack _). by vm_compute.
  - repeat constructor.
  - constructor; [|constructor; [|constructor; [|constructor]]].
    + exists Scenario.a_entries. split; [reflexivity|]. vm_compute. discriminate.
    + exists Scenario.c_entries. split; [reflexivity|]. vm_compute. discriminate.
    + exists Deployed.custom_entries. split; [reflexivity|]. vm_compute. discriminate.
  - exists wf. exact Hrun.
Defined.

